(** * RoadWatch: the polling file watcher of [src/roadwatch/watch.py]

    A shallow embedding of [FileSnapshot], [FileEvent] and [FileWatcher]
    and of the snapshot/diff engine, followed by the properties of the
    engine, of the dispatcher and of the session life cycle.

    Modelling choices.
    - [pathlib.Path] values are strings; a dict keyed by paths is a
      [gmap string _], a [set] of paths a [gset string].  The iteration
      order of a Python set is unspecified; the model iterates in the
      order of [elements], and no statement below depends on the order
      inside one group of events.
    - [st_size] is an integer ([Z]).  [st_mtime] is a finite double; it is
      modelled by the rational it denotes ([Q]), and Python's [!=] on two
      such values by the negation of [Qeq_bool].
    - [FileEvent.timestamp] is [datetime.now()] at construction time and is
      left out of the record.
    - The file system, [pathlib]'s glob matching and [hashlib.md5] are not
      part of the program: the file system is an explicit value read by
      [_scan], the matcher is a parameter of the development. *)

From Stdlib Require Import QArith Ascii String.
From stdpp Require Import gmap strings list fin_maps.

(** ** Data model *)

Abbreviation Path := string (only parsing).

Inductive EventType : Type := CREATED | MODIFIED | DELETED | MOVED.

#[global] Instance EventType_eq_dec : EqDecision EventType.
Proof. solve_decision. Defined.

(** [EventType.value] *)
Definition value (t : EventType) : string :=
  match t with
  | CREATED => "created"
  | MODIFIED => "modified"
  | DELETED => "deleted"
  | MOVED => "moved"
  end.

(** [FileEvent]; [old_path] defaults to [None], [is_directory] to [False]. *)
Record FileEvent : Type := mkFileEvent {
  ev_type : EventType;
  ev_path : Path;
  ev_old_path : option Path;
  ev_is_directory : bool
}.

#[global] Instance FileEvent_eq_dec : EqDecision FileEvent.
Proof. solve_decision. Defined.

(** [FileEvent(type=t, path=p)] *)
Definition new_event (t : EventType) (p : Path) : FileEvent :=
  {| ev_type := t; ev_path := p; ev_old_path := None; ev_is_directory := false |}.

(** [FileSnapshot]; [hash] defaults to the empty string. *)
Record FileSnapshot : Type := mkFileSnapshot {
  snap_path : Path;
  snap_size : Z;
  snap_mtime : Q;
  snap_hash : string;
  snap_exists : bool
}.

(** What one scan can observe of the file system. *)
Record FileSystem : Type := mkFileSystem {
  fs_exists : Path -> bool;            (* path.exists() *)
  fs_is_file : Path -> bool;           (* path.is_file() *)
  fs_st_size : Path -> Z;              (* path.stat().st_size *)
  fs_st_mtime : Path -> Q;             (* path.stat().st_mtime *)
  fs_md5 : Path -> string;             (* md5(open(path).read()).hexdigest() *)
  fs_glob : Path -> string -> list Path (* root.glob(pattern), in order *)
}.

(** [FileSnapshot.from_path] *)
Definition from_path (fs : FileSystem) (p : Path) (compute_hash : bool)
  : FileSnapshot :=
  if negb (fs_exists fs p) then
    {| snap_path := p; snap_size := 0; snap_mtime := 0; snap_hash := "";
       snap_exists := false |}
  else
    let hash_val :=
      if compute_hash && fs_is_file fs p then fs_md5 fs p else "" in
    {| snap_path := p; snap_size := fs_st_size fs p;
       snap_mtime := fs_st_mtime fs p; snap_hash := hash_val;
       snap_exists := true |}.

(** ** The diff engine: the body of [FileWatcher._check] after the scan *)

(** [prev.hash != curr.hash] *)
Definition hash_ne (a b : FileSnapshot) : bool :=
  negb (String.eqb (snap_hash a) (snap_hash b)).

(** [prev.mtime != curr.mtime or prev.size != curr.size] *)
Definition meta_ne (a b : FileSnapshot) : bool :=
  negb (Qeq_bool (snap_mtime a) (snap_mtime b))
  || negb (Z.eqb (snap_size a) (snap_size b)).

(** The test of the third loop of [_check] for one common path. *)
Definition is_modified (use_hash : bool) (a b : FileSnapshot) : bool :=
  if use_hash then hash_ne a b else meta_ne a b.

(** The third loop of [_check]: one pass over [prev_paths & curr_paths]. *)
Definition modified_events (use_hash : bool)
    (prev curr : gmap string FileSnapshot) (common : list Path)
  : list FileEvent :=
  omap (fun p =>
          match prev !! p, curr !! p with
          | Some a, Some b =>
              if is_modified use_hash a b then Some (new_event MODIFIED p)
              else None
          | _, _ => None
          end) common.

(** The three loops of [_check], lines 125 to 141: [events] after the
    loops, for the stored snapshots [prev] and the fresh scan [curr]. *)
Definition check_events (use_hash : bool)
    (prev curr : gmap string FileSnapshot) : list FileEvent :=
  let prev_paths : gset string := dom prev in
  let curr_paths : gset string := dom curr in
  (new_event CREATED <$> elements (curr_paths ∖ prev_paths))
  ++ (new_event DELETED <$> elements (prev_paths ∖ curr_paths))
  ++ modified_events use_hash prev curr (elements (prev_paths ∩ curr_paths)).

(** ** Observers, the logger and the session record *)

(** A raised Python exception: whether it is an instance of [Exception]
    (what [except Exception] catches), and its message.  [SystemExit],
    [KeyboardInterrupt] and [GeneratorExit] derive from [BaseException]
    only. *)
Record PyExc : Type := mkPyExc {
  exc_is_Exception : bool;
  exc_msg : string
}.

(** The records written by [logger.error]. *)
Abbreviation Log := (list string) (only parsing).

(** [threading.Thread(target=self._poll, daemon=True)] *)
Record Thread : Type := mkThread {
  thread_ident : nat;
  thread_daemon : bool
}.

(** The threads started so far, oldest first. *)
Abbreviation Runtime := (list Thread) (only parsing).

(** A callback acts on a state of its own and returns or raises. *)
Definition Handler (World : Type) : Type :=
  FileEvent -> World -> World * option PyExc.

Record FileWatcher (World : Type) : Type := mkFileWatcher {
  path : Path;
  recursive : bool;
  patterns : list string;
  ignore_patterns : list string;
  poll_interval : Q;
  use_hash : bool;
  _snapshots : gmap string FileSnapshot;
  _handlers : EventType -> list (Handler World);
  _running : bool;
  _thread : option Thread
}.

Arguments mkFileWatcher {World}.
Arguments path {World}.
Arguments recursive {World}.
Arguments patterns {World}.
Arguments ignore_patterns {World}.
Arguments poll_interval {World}.
Arguments use_hash {World}.
Arguments _snapshots {World}.
Arguments _handlers {World}.
Arguments _running {World}.
Arguments _thread {World}.

(** [x or d] on an optional list: [None] and the empty list are falsy. *)
Definition or_default (x : option (list string)) (d : list string)
  : list string :=
  match x with
  | Some (a :: l) => a :: l
  | Some [] => d
  | None => d
  end.

Section Session.
Context {World : Type}.

(** [FileWatcher.__init__]; an argument left out is [None]. *)
Definition __init__ (p : Path) (rec : bool)
    (pats ignore_pats : option (list string)) (interval : Q) (uh : bool)
  : FileWatcher World :=
  {| path := p;
     recursive := rec;
     patterns := or_default pats ["*"];
     ignore_patterns := or_default ignore_pats [];
     poll_interval := interval;
     use_hash := uh;
     _snapshots := ∅;
     _handlers := fun _ => [];
     _running := false;
     _thread := None |}.

(** Assignments to [self._snapshots], [self._handlers], [self._running]
    and [self._thread]. *)
Definition set_snapshots (w : FileWatcher World)
    (s : gmap string FileSnapshot) : FileWatcher World :=
  mkFileWatcher (path w) (recursive w) (patterns w) (ignore_patterns w)
    (poll_interval w) (use_hash w) s (_handlers w) (_running w) (_thread w).

Definition set_handlers (w : FileWatcher World)
    (h : EventType -> list (Handler World)) : FileWatcher World :=
  mkFileWatcher (path w) (recursive w) (patterns w) (ignore_patterns w)
    (poll_interval w) (use_hash w) (_snapshots w) h (_running w) (_thread w).

Definition set_running (w : FileWatcher World) (b : bool)
  : FileWatcher World :=
  mkFileWatcher (path w) (recursive w) (patterns w) (ignore_patterns w)
    (poll_interval w) (use_hash w) (_snapshots w) (_handlers w) b (_thread w).

Definition set_thread (w : FileWatcher World) (t : option Thread)
  : FileWatcher World :=
  mkFileWatcher (path w) (recursive w) (patterns w) (ignore_patterns w)
    (poll_interval w) (use_hash w) (_snapshots w) (_handlers w) (_running w) t.

(** [FileWatcher.on]: append to the list of one event type. *)
Definition on (w : FileWatcher World) (t : EventType) (h : Handler World)
  : FileWatcher World :=
  set_handlers w
    (fun t' => if decide (t' = t) then _handlers w t' ++ [h]
               else _handlers w t').

Definition on_created (w : FileWatcher World) (h : Handler World) :=
  on w CREATED h.
Definition on_modified (w : FileWatcher World) (h : Handler World) :=
  on w MODIFIED h.
Definition on_deleted (w : FileWatcher World) (h : Handler World) :=
  on w DELETED h.

(** [FileWatcher.on_any]: append to the list of every event type. *)
Definition on_any (w : FileWatcher World) (h : Handler World)
  : FileWatcher World :=
  set_handlers w (fun t' => _handlers w t' ++ [h]).

(** *** Filtering and scanning *)

(** [path.match(pattern)] of [pathlib], on patterns it accepts. *)
Variable path_match : Path -> string -> bool.

(** [FileWatcher._matches]: the first loop returns [False] at the first
    ignore pattern that matches, the second [True] at the first include
    pattern that matches. *)
Definition _matches (w : FileWatcher World) (p : Path) : bool :=
  if existsb (path_match p) (ignore_patterns w) then false
  else if existsb (path_match p) (patterns w) then true
  else false.

(** One iteration of the loop of [_scan] over the glob results. *)
Definition scan_step (w : FileWatcher World) (fs : FileSystem)
    (snapshots : gmap string FileSnapshot) (p : Path)
  : gmap string FileSnapshot :=
  if fs_is_file fs p && _matches w p
  then <[p := from_path fs p (use_hash w)]> snapshots
  else snapshots.

(** [FileWatcher._scan] *)
Definition _scan (w : FileWatcher World) (fs : FileSystem)
  : gmap string FileSnapshot :=
  if fs_is_file fs (path w) then
    if _matches w (path w)
    then <[path w := from_path fs (path w) (use_hash w)]> ∅
    else ∅
  else
    let pattern := if recursive w then "**/*" else "*" in
    fold_left (scan_step w fs) (fs_glob fs (path w) pattern) ∅.

(** [FileWatcher._check]: the events and the session with
    [self._snapshots = current]. *)
Definition _check (w : FileWatcher World) (fs : FileSystem)
  : list FileEvent * FileWatcher World :=
  let current := _scan w fs in
  (check_events (use_hash w) (_snapshots w) current,
   set_snapshots w current).

(** [FileWatcher.poll_once]; [not self._snapshots] holds of the empty
    dict only. *)
Definition poll_once (w : FileWatcher World) (fs : FileSystem)
  : list FileEvent * FileWatcher World :=
  if Nat.eqb (size (_snapshots w)) 0
  then ([], set_snapshots w (_scan w fs))
  else _check w fs.

(** Successive calls of [poll_once], one per file-system state; the
    events of each call, in order. *)
Fixpoint poll_many (w : FileWatcher World) (fss : list FileSystem)
  : list (list FileEvent) * FileWatcher World :=
  match fss with
  | [] => ([], w)
  | fs :: rest =>
      let '(evs, w1) := poll_once w fs in
      let '(out, w2) := poll_many w1 rest in
      (evs :: out, w2)
  end.

(** *** Dispatch *)

(** The loop of [_emit] over the handlers of one event type: an
    [Exception] is logged and the loop goes on, anything else leaves
    the loop and propagates. *)
Fixpoint emit_loop (hs : list (Handler World)) (ev : FileEvent)
    (st : World * Log) : (World * Log) * option PyExc :=
  match hs with
  | [] => (st, None)
  | handler :: rest =>
      let '(world, log) := st in
      match handler ev world with
      | (world', None) => emit_loop rest ev (world', log)
      | (world', Some e) =>
          if exc_is_Exception e
          then emit_loop rest ev
                 (world', log ++ ["Handler error: " +:+ exc_msg e])
          else ((world', log), Some e)
      end
  end.

(** [FileWatcher._emit] *)
Definition _emit (w : FileWatcher World) (ev : FileEvent)
    (st : World * Log) : (World * Log) * option PyExc :=
  emit_loop (_handlers w (ev_type ev)) ev st.

(** [for event in events: self._emit(event)] in [_poll]. *)
Fixpoint emit_all (w : FileWatcher World) (events : list FileEvent)
    (st : World * Log) : (World * Log) * option PyExc :=
  match events with
  | [] => (st, None)
  | ev :: rest =>
      match _emit w ev st with
      | (st', None) => emit_all w rest st'
      | (st', Some e) => (st', Some e)
      end
  end.

(** *** The polling thread and the life cycle *)

(** The [while self._running] loop of [_poll].  [sched] lists the file
    system as seen by the successive iterations; it ends where the run
    is no longer observed.  [time.sleep] has no effect on the state. *)
Fixpoint poll_loop (sched : list FileSystem) (w : FileWatcher World)
    (st : World * Log)
  : list (list FileEvent) * FileWatcher World * (World * Log) * option PyExc :=
  match sched with
  | [] => ([], w, st, None)
  | fs :: rest =>
      if _running w then
        let '(events, w1) := _check w fs in
        match emit_all w1 events st with
        | (st', None) =>
            let '(out, w2, st2, r) := poll_loop rest w1 st' in
            (events :: out, w2, st2, r)
        | (st', Some e) => ([events], w1, st', Some e)
        end
      else ([], w, st, None)
  end.

(** [FileWatcher._poll]: the baseline scan on [fs0], then the loop. *)
Definition _poll (w : FileWatcher World) (fs0 : FileSystem)
    (sched : list FileSystem) (st : World * Log)
  : list (list FileEvent) * FileWatcher World * (World * Log) * option PyExc :=
  poll_loop sched (set_snapshots w (_scan w fs0)) st.

(** [FileWatcher.start]: a no-op while running, otherwise the flag is
    set and a new daemon thread running [_poll] is started. *)
Definition start (w : FileWatcher World) (rt : Runtime)
  : FileWatcher World * Runtime :=
  if _running w then (w, rt)
  else
    let t := {| thread_ident := length rt; thread_daemon := true |} in
    (set_thread (set_running w true) (Some t), rt ++ [t]).

(** [FileWatcher.stop]: the flag is cleared; [join(timeout=2)] waits and
    changes no field. *)
Definition stop (w : FileWatcher World) : FileWatcher World :=
  set_running w false.

End Session.

(** ** Counting events *)

(** The number of events of type [t] for path [p] in a list of events. *)
Definition count_events (t : EventType) (p : Path) (evs : list FileEvent)
  : nat :=
  length (filter (fun e => ev_type e = t ∧ ev_path e = p) evs).

(** ** A concrete matcher and file system, for evaluating the code *)

(** [fnmatch] on one path segment, for patterns made of literal
    characters, [*] and [?]. *)
Fixpoint glob_chars (pat : list ascii) : list ascii -> bool :=
  match pat with
  | [] => fun s => match s with [] => true | _ :: _ => false end
  | c :: pat' =>
      if Ascii.eqb c "*"%char then
        fix star (s : list ascii) : bool :=
          glob_chars pat' s
          || match s with [] => false | _ :: s' => star s' end
      else if Ascii.eqb c "?"%char then
        fun s => match s with [] => false | _ :: s' => glob_chars pat' s' end
      else
        fun s =>
          match s with
          | [] => false
          | d :: s' => Ascii.eqb c d && glob_chars pat' s'
          end
  end.

(** The characters of [path.name]: what follows the last [/]. *)
Fixpoint name_chars (acc s : list ascii) : list ascii :=
  match s with
  | [] => acc
  | c :: s' =>
      if Ascii.eqb c "/"%char then name_chars [] s' else name_chars (acc ++ [c]) s'
  end.

(** [PurePath.match] for a relative pattern of one segment: the pattern
    is matched against the final segment of the path. *)
Definition segment_match (p : Path) (pattern : string) : bool :=
  glob_chars (list_ascii_of_string pattern)
    (name_chars [] (list_ascii_of_string p)).

Record FileData : Type := mkFileData {
  fd_size : Z;
  fd_mtime : Q;
  fd_md5 : string
}.

(** The entry of [p] in a directory listing. *)
Fixpoint find_file (files : list (Path * FileData)) (p : Path)
  : option FileData :=
  match files with
  | [] => None
  | (q, d) :: rest => if String.eqb q p then Some d else find_file rest p
  end.

(** A directory [root] whose children are the regular files [files]:
    both glob patterns of [_scan] list exactly these children. *)
Definition dir_fs (root : Path) (files : list (Path * FileData))
  : FileSystem :=
  {| fs_exists := fun p => String.eqb p root || bool_decide (is_Some (find_file files p));
     fs_is_file := fun p => bool_decide (is_Some (find_file files p));
     fs_st_size := fun p => from_option fd_size 0%Z (find_file files p);
     fs_st_mtime := fun p => from_option fd_mtime 0%Q (find_file files p);
     fs_md5 := fun p => from_option fd_md5 "" (find_file files p);
     fs_glob := fun r _ => if String.eqb r root then files.*1 else [] |}.

(** ** Concrete sessions and snapshots used in the examples *)

(** [a.txt] holding "Hello", and then "Hello World" one second later. *)
Definition snap_hello : FileSnapshot :=
  {| snap_path := "/d/a.txt"; snap_size := 5; snap_mtime := 100;
     snap_hash := "8b1a9953c4611296a827abf8c47804d7"; snap_exists := true |}.

Definition snap_hello_world : FileSnapshot :=
  {| snap_path := "/d/a.txt"; snap_size := 11; snap_mtime := 101;
     snap_hash := "b10a8db164e0754105b7a99be72e3fe5"; snap_exists := true |}.

(** The same two states of [a.txt] with the digest left at its default. *)
Definition snap_nohash_1 : FileSnapshot :=
  {| snap_path := "/d/a.txt"; snap_size := 5; snap_mtime := 100;
     snap_hash := ""; snap_exists := true |}.

Definition snap_nohash_2 : FileSnapshot :=
  {| snap_path := "/d/a.txt"; snap_size := 11; snap_mtime := 101;
     snap_hash := ""; snap_exists := true |}.

(** [FileWatcher("/d")] with every option at its default. *)
Definition default_watcher : FileWatcher unit :=
  __init__ "/d" true None None 1 false.

(** [FileWatcher("/d", patterns=["*.txt"])] *)
Definition txt_watcher : FileWatcher unit :=
  __init__ "/d" true (Some ["*.txt"]) None 1 false.

(** [/d] empty, and [/d] after [x.txt] was written with content "A". *)
Definition fs_empty : FileSystem := dir_fs "/d" [].

Definition fs_x : FileSystem :=
  dir_fs "/d"
    [("/d/x.txt",
      {| fd_size := 1; fd_mtime := 100;
         fd_md5 := "7fc56270e7a70fa81a5935b72eacbe29" |})].

(** [/d] holding [a.txt] and [b.log]. *)
Definition fs_txt_log : FileSystem :=
  dir_fs "/d"
    [("/d/a.txt",
      {| fd_size := 5; fd_mtime := 100;
         fd_md5 := "8b1a9953c4611296a827abf8c47804d7" |});
     ("/d/b.log",
      {| fd_size := 1; fd_mtime := 100;
         fd_md5 := "7fc56270e7a70fa81a5935b72eacbe29" |})].


Definition recording_handler : Handler (list string) :=
  fun _ trace => (trace ++ ["second"], None).


(** ** The rest of the module: printing, scoped use, groups *)

(** The members of [EventType], in definition order: the keys of
    [{t: [] for t in EventType}] and the order of [for t in EventType]. *)
Definition EventType_members : list EventType :=
  [CREATED; MODIFIED; DELETED; MOVED].

(** [str(x)] for an optional path inside an f-string. *)
Definition str_path (o : option Path) : string :=
  match o with
  | Some p => p
  | None => "None"
  end.

(** [FileEvent.__str__] *)
Definition __str__ (e : FileEvent) : string :=
  if decide (ev_type e = MOVED)
  then value (ev_type e) +:+ ": " +:+ str_path (ev_old_path e)
       +:+ " -> " +:+ ev_path e
  else value (ev_type e) +:+ ": " +:+ ev_path e.

(** The paths of the events of type [t] in a list of events. *)
Definition event_paths (t : EventType) (evs : list FileEvent) : gset string :=
  list_to_set (ev_path <$> filter (fun e => ev_type e = t) evs).

Section ModuleLevel.
Context {World : Type}.

(** [FileWatcher.__enter__] and [FileWatcher.__exit__]; the latter
    ignores its arguments. *)
Definition __enter__ (w : FileWatcher World) (rt : Runtime)
  : FileWatcher World * Runtime :=
  start w rt.

Definition __exit__ (w : FileWatcher World) : FileWatcher World :=
  stop w.

(** The module-level [watch(path, callback, **kwargs)]. *)
Definition watch (p : Path) (callback : Handler World) (rec : bool)
    (pats ignore_pats : option (list string)) (interval : Q) (uh : bool)
    (rt : Runtime) : FileWatcher World * Runtime :=
  let watcher := __init__ p rec pats ignore_pats interval uh in
  let watcher := on_any watcher callback in
  start watcher rt.

(** One call on a session by its owner; the events returned by
    [poll_once] are dropped. *)
Inductive Call : Type :=
  | CallOn (t : EventType) (h : Handler World)
  | CallOnAny (h : Handler World)
  | CallStart
  | CallStop
  | CallPollOnce (fs : FileSystem).

Definition run_call (path_match : Path -> string -> bool) (c : Call)
    (s : FileWatcher World * Runtime) : FileWatcher World * Runtime :=
  match c with
  | CallOn t h => (on s.1 t h, s.2)
  | CallOnAny h => (on_any s.1 h, s.2)
  | CallStart => start s.1 s.2
  | CallStop => (stop s.1, s.2)
  | CallPollOnce fs => ((poll_once path_match s.1 fs).2, s.2)
  end.

(** A sequence of calls, first call first. *)
Definition run_calls (path_match : Path -> string -> bool) (cs : list Call)
    (s : FileWatcher World * Runtime) : FileWatcher World * Runtime :=
  fold_left (fun s c => run_call path_match c s) cs s.

End ModuleLevel.

Arguments Call : clear implicits.

(** [class MultiWatcher] *)
Module MultiWatcher.

#[local] Abbreviation FileWatcher_init := __init__ (only parsing).
#[local] Abbreviation FileWatcher_on := on (only parsing).
#[local] Abbreviation FileWatcher_start := start (only parsing).
#[local] Abbreviation FileWatcher_stop := stop (only parsing).

Record t (World : Type) : Type := mk {
  _watchers : list (FileWatcher World);
  _handlers : EventType -> list (Handler World)
}.

Arguments mk {World}.
Arguments _watchers {World}.
Arguments _handlers {World}.

Section Group.
Context {World : Type}.

(** [MultiWatcher.__init__] *)
Definition __init__ : t World :=
  {| _watchers := []; _handlers := fun _ => [] |}.

(** The two nested loops of [watch]: every handler of the group, type by
    type, is registered on the new session. *)
Definition register_all (hs : EventType -> list (Handler World))
    (watcher : FileWatcher World) : FileWatcher World :=
  fold_left
    (fun watcher event_type =>
       fold_left (fun watcher handler => FileWatcher_on watcher event_type handler)
         (hs event_type) watcher)
    EventType_members watcher.

(** [MultiWatcher.watch(path, **kwargs)] *)
Definition watch (m : t World) (p : Path) (rec : bool)
    (pats ignore_pats : option (list string)) (interval : Q) (uh : bool)
  : t World :=
  let watcher := FileWatcher_init p rec pats ignore_pats interval uh in
  let watcher := register_all (_handlers m) watcher in
  {| _watchers := _watchers m ++ [watcher]; _handlers := _handlers m |}.

(** [MultiWatcher.on]: the handler joins the list of the group and the
    list of every session of the group. *)
Definition on (m : t World) (event_type : EventType) (handler : Handler World)
  : t World :=
  {| _watchers :=
       (fun watcher => FileWatcher_on watcher event_type handler)
         <$> _watchers m;
     _handlers :=
       fun t' => if decide (t' = event_type) then _handlers m t' ++ [handler]
                 else _handlers m t' |}.

(** [MultiWatcher.on_any]: [self.on(t, handler)] for every type. *)
Definition on_any (m : t World) (handler : Handler World) : t World :=
  fold_left (fun m t' => on m t' handler) EventType_members m.

(** [for watcher in self._watchers: watcher.start()] *)
Fixpoint start_each (ws : list (FileWatcher World)) (rt : Runtime)
  : list (FileWatcher World) * Runtime :=
  match ws with
  | [] => ([], rt)
  | watcher :: rest =>
      let '(watcher', rt1) := FileWatcher_start watcher rt in
      let '(rest', rt2) := start_each rest rt1 in
      (watcher' :: rest', rt2)
  end.

(** [MultiWatcher.start] *)
Definition start (m : t World) (rt : Runtime) : t World * Runtime :=
  let '(ws, rt') := start_each (_watchers m) rt in
  ({| _watchers := ws; _handlers := _handlers m |}, rt').

(** [MultiWatcher.stop] *)
Definition stop (m : t World) : t World :=
  {| _watchers := FileWatcher_stop <$> _watchers m;
     _handlers := _handlers m |}.

(** One call on a group by its owner. *)
Inductive Call : Type :=
  | CallWatch (p : Path) (rec : bool) (pats ignore_pats : option (list string))
      (interval : Q) (uh : bool)
  | CallOn (event_type : EventType) (handler : Handler World)
  | CallOnAny (handler : Handler World)
  | CallStart
  | CallStop.

Definition run_call (c : Call) (s : t World * Runtime) : t World * Runtime :=
  match c with
  | CallWatch p rec pats ignore_pats interval uh =>
      (watch s.1 p rec pats ignore_pats interval uh, s.2)
  | CallOn event_type handler => (on s.1 event_type handler, s.2)
  | CallOnAny handler => (on_any s.1 handler, s.2)
  | CallStart => start s.1 s.2
  | CallStop => (stop s.1, s.2)
  end.

(** A sequence of calls on a new group, first call first. *)
Definition run_calls (cs : list Call) : t World * Runtime :=
  fold_left (fun s c => run_call c s) cs (__init__, []).

End Group.

Arguments Call : clear implicits.

End MultiWatcher.

(** ** More concrete values for the examples *)



(** [FileWatcher("/d").on_created(recording)] *)
Definition quiet_watcher : FileWatcher (list string) :=
  on_created (__init__ "/d" true None None 1 false) recording_handler.

(** [/d] after [x.txt] was overwritten with "AB". *)
Definition fs_x2 : FileSystem :=
  dir_fs "/d"
    [("/d/x.txt",
      {| fd_size := 2; fd_mtime := 101;
         fd_md5 := "b86fc6b051f63d73de262d4c34e3a0a9" |})].

(** The default session after [start()]. *)
Definition running_watcher : FileWatcher unit :=
  (start default_watcher []).1.

(** ** Properties of the diff engine *)

Section CountLemmas.
Implicit Types (t u : EventType) (p q : Path) (evs : list FileEvent).

Lemma count_events_nil t p : count_events t p [] = 0.
Proof. reflexivity. Qed.

Lemma count_events_app t p evs1 evs2 :
  count_events t p (evs1 ++ evs2)
  = count_events t p evs1 + count_events t p evs2.
Proof. unfold count_events. by rewrite filter_app, length_app. Qed.

Lemma count_events_cons t p e evs :
  count_events t p (e :: evs)
  = (if decide (ev_type e = t ∧ ev_path e = p) then 1 else 0)
    + count_events t p evs.
Proof.
  unfold count_events. rewrite filter_cons.
  destruct (decide (ev_type e = t ∧ ev_path e = p)); reflexivity.
Qed.

(** Events of another type do not count. *)
Lemma count_events_other_type t u p (l : list Path) :
  t ≠ u → count_events t p (new_event u <$> l) = 0.
Proof.
  intros Hne. induction l as [|q l IH]; [reflexivity|].
  rewrite fmap_cons, count_events_cons, IH.
  destruct (decide _) as [[Ht _]|]; [|reflexivity].
  simpl in Ht. congruence.
Qed.

(** Over a duplicate-free list of paths, [p] is counted once if it is
    there and not at all otherwise. *)
Lemma count_events_same_type t p (l : list Path) :
  NoDup l →
  count_events t p (new_event t <$> l) = if decide (p ∈ l) then 1 else 0.
Proof.
  induction 1 as [|q l Hq Hnd IH]; [reflexivity|].
  rewrite fmap_cons, count_events_cons, IH. simpl.
  destruct (decide (t = t ∧ q = p)) as [[_ ->]|Hn].
  - rewrite (decide_False (P := p ∈ l)) by done.
    rewrite (decide_True (P := p ∈ p :: l)) by set_solver. reflexivity.
  - destruct (decide (p ∈ l)) as [Hin|Hin].
    + rewrite (decide_True (P := p ∈ q :: l)) by set_solver. reflexivity.
    + rewrite (decide_False (P := p ∈ q :: l)); [reflexivity|].
      intros [->|?]%elem_of_cons; [apply Hn|]; done.
Qed.

Lemma modified_events_type uh prev curr (l : list Path) e :
  e ∈ modified_events uh prev curr l → ev_type e = MODIFIED.
Proof.
  unfold modified_events. rewrite list_elem_of_omap.
  intros (p & _ & Hp).
  destruct (prev !! p), (curr !! p); try discriminate.
  destruct (is_modified _ _ _); [|discriminate].
  by injection Hp as <-.
Qed.

Lemma count_events_absent t p evs :
  (∀ e, e ∈ evs → ev_type e ≠ t) → count_events t p evs = 0.
Proof.
  intros H. induction evs as [|e evs IH]; [reflexivity|].
  rewrite count_events_cons, IH by (intros; apply H; set_solver).
  rewrite decide_False; [reflexivity|].
  intros [Ht _]. by apply (H e); [set_solver|].
Qed.

Lemma count_modified_events_other t uh prev curr (l : list Path) p :
  t ≠ MODIFIED → count_events t p (modified_events uh prev curr l) = 0.
Proof.
  intros Hne. apply count_events_absent. intros e He Ht.
  apply modified_events_type in He. congruence.
Qed.

End CountLemmas.

(** C4. For every pair of snapshot sets, the diff holds exactly one
    [created] event for each path of the current set that the previous
    set lacks, exactly one [deleted] event for each path of the previous
    set that the current set lacks, and no [created] or [deleted] event
    for any other path. *)
Theorem check_created_deleted_exactly_once :
  ∀ (use_hash : bool) (prev curr : gmap string FileSnapshot) (p : Path),
    count_events CREATED p (check_events use_hash prev curr)
    = (if decide (p ∈ dom curr ∖ dom prev) then 1 else 0)
    ∧ count_events DELETED p (check_events use_hash prev curr)
      = (if decide (p ∈ dom prev ∖ dom curr) then 1 else 0).
Proof.
  intros uh prev curr p. unfold check_events. cbv zeta.
  rewrite !count_events_app.
  rewrite !count_modified_events_other by done.
  rewrite (count_events_other_type CREATED DELETED) by done.
  rewrite (count_events_other_type DELETED CREATED) by done.
  rewrite !count_events_same_type by apply NoDup_elements.
  split.
  - rewrite !Nat.add_0_r.
    destruct (decide (p ∈ elements _)) as [H|H];
      rewrite elem_of_elements in H.
    + by rewrite decide_True.
    + by rewrite decide_False.
  - rewrite Nat.add_0_r, Nat.add_0_l.
    destruct (decide (p ∈ elements _)) as [H|H];
      rewrite elem_of_elements in H.
    + by rewrite decide_True.
    + by rewrite decide_False.
Qed.

(** C5. For every pair of snapshot sets, the event list of the diff is
    made of three consecutive groups: the [created] events, then the
    [deleted] events, then the [modified] events. *)
Theorem check_events_grouped :
  ∀ (use_hash : bool) (prev curr : gmap string FileSnapshot),
    ∃ created deleted modified : list FileEvent,
      check_events use_hash prev curr = created ++ deleted ++ modified
      ∧ Forall (fun e => ev_type e = CREATED) created
      ∧ Forall (fun e => ev_type e = DELETED) deleted
      ∧ Forall (fun e => ev_type e = MODIFIED) modified.
Proof.
  intros uh prev curr. unfold check_events. cbv zeta.
  eexists _, _, _. split; [reflexivity|].
  repeat split.
  - apply Forall_fmap, Forall_true. reflexivity.
  - apply Forall_fmap, Forall_true. reflexivity.
  - apply Forall_forall. intros e He. by eapply modified_events_type.
Qed.

Section SameSnapshot.

Lemma hash_ne_same a : hash_ne a a = false.
Proof. unfold hash_ne. by rewrite String.eqb_refl. Qed.

Lemma meta_ne_same a : meta_ne a a = false.
Proof.
  unfold meta_ne.
  rewrite (proj2 (Qeq_bool_iff _ _) (Qeq_refl (snap_mtime a))).
  by rewrite Z.eqb_refl.
Qed.

Lemma is_modified_same uh a : is_modified uh a a = false.
Proof. destruct uh; [apply hash_ne_same | apply meta_ne_same]. Qed.

Lemma modified_events_same uh (S : gmap string FileSnapshot) (l : list Path) :
  modified_events uh S S l = [].
Proof.
  induction l as [|p l IH]; [reflexivity|].
  unfold modified_events in *. cbn [omap list_omap]. rewrite IH.
  destruct (S !! p) as [a|]; [|reflexivity].
  by rewrite is_modified_same.
Qed.

Lemma check_events_refl uh (S : gmap string FileSnapshot) :
  check_events uh S S = [].
Proof.
  unfold check_events. cbv zeta.
  rewrite modified_events_same, difference_diag_L.
  by rewrite elements_empty.
Qed.

End SameSnapshot.

(** C7. For every snapshot set [S], in hashing mode and in metadata
    mode, the diff of [S] against itself is the empty event list. *)
Theorem check_events_same_empty :
  ∀ (use_hash : bool) (S : gmap string FileSnapshot),
    check_events use_hash S S = [].
Proof. intros uh S. apply check_events_refl. Qed.

Section ModifiedCount.

Lemma modified_events_cons uh prev curr p (l : list Path) :
  modified_events uh prev curr (p :: l)
  = modified_events uh prev curr [p] ++ modified_events uh prev curr l.
Proof.
  unfold modified_events. cbn [omap list_omap].
  destruct (prev !! p), (curr !! p); try reflexivity.
  destruct (is_modified _ _ _); reflexivity.
Qed.

Lemma count_modified_single_other uh prev curr p q :
  q ≠ p → count_events MODIFIED p (modified_events uh prev curr [q]) = 0.
Proof.
  intros Hne. unfold modified_events. cbn [omap list_omap].
  destruct (prev !! q), (curr !! q); try reflexivity.
  destruct (is_modified _ _ _); [|reflexivity].
  rewrite count_events_cons. simpl.
  rewrite decide_False; [reflexivity|]. intros [_ ?]. done.
Qed.

Lemma count_modified_single uh prev curr p a b :
  prev !! p = Some a → curr !! p = Some b →
  count_events MODIFIED p (modified_events uh prev curr [p])
  = if is_modified uh a b then 1 else 0.
Proof.
  intros Ha Hb. unfold modified_events. cbn [omap list_omap].
  rewrite Ha, Hb. destruct (is_modified _ _ _); [|reflexivity].
  rewrite count_events_cons. simpl. by rewrite decide_True.
Qed.

Lemma count_modified_not_in uh prev curr p (l : list Path) :
  p ∉ l → count_events MODIFIED p (modified_events uh prev curr l) = 0.
Proof.
  induction l as [|q l IH]; [reflexivity|].
  intros Hn. rewrite modified_events_cons, count_events_app.
  rewrite count_modified_single_other by set_solver.
  rewrite IH by set_solver. reflexivity.
Qed.

Lemma count_modified_in uh prev curr p a b (l : list Path) :
  NoDup l → p ∈ l → prev !! p = Some a → curr !! p = Some b →
  count_events MODIFIED p (modified_events uh prev curr l)
  = if is_modified uh a b then 1 else 0.
Proof.
  intros Hnd Hin Ha Hb. revert Hin.
  induction Hnd as [|q l Hq Hnd IH]; intros Hin; [set_solver|].
  rewrite modified_events_cons, count_events_app.
  destruct (decide (q = p)) as [->|Hne].
  - rewrite (count_modified_single _ _ _ _ a b) by done.
    rewrite count_modified_not_in by done. lia.
  - rewrite count_modified_single_other by done.
    apply elem_of_cons in Hin as [Heq|Hin]; [congruence|].
    by rewrite IH.
Qed.

(** The number of [modified] events of a path that both sets hold. *)
Lemma count_modified_common uh prev curr p a b :
  prev !! p = Some a → curr !! p = Some b →
  count_events MODIFIED p (check_events uh prev curr)
  = if is_modified uh a b then 1 else 0.
Proof.
  intros Ha Hb. unfold check_events. cbv zeta.
  rewrite !count_events_app.
  rewrite !count_events_other_type by done.
  rewrite (count_modified_in uh prev curr p a b); [reflexivity| | |done..].
  - apply NoDup_elements.
  - apply elem_of_elements, elem_of_intersection.
    split; apply elem_of_dom; eauto.
Qed.

Lemma meta_ne_true a b :
  meta_ne a b = true
  ↔ ¬ (snap_mtime a == snap_mtime b)%Q ∨ snap_size a ≠ snap_size b.
Proof.
  unfold meta_ne. rewrite orb_true_iff, !negb_true_iff.
  rewrite <- !not_true_iff_false, Qeq_bool_iff, Z.eqb_eq. reflexivity.
Qed.

Lemma hash_ne_true a b : hash_ne a b = true ↔ snap_hash a ≠ snap_hash b.
Proof.
  unfold hash_ne. rewrite negb_true_iff, <- not_true_iff_false.
  by rewrite String.eqb_eq.
Qed.

End ModifiedCount.

(** C6. With content hashing disabled, a path held by both snapshot sets
    gets a [modified] event (exactly one) if and only if its mtime or its
    size differs between the two snapshots; with equal mtime and equal
    size it gets none, whatever the two digests are. *)
Theorem metadata_mode_modified_iff :
  ∀ (prev curr : gmap string FileSnapshot) (p : Path) (a b : FileSnapshot),
    prev !! p = Some a → curr !! p = Some b →
    let differs :=
      ¬ (snap_mtime a == snap_mtime b)%Q ∨ snap_size a ≠ snap_size b in
    let n := count_events MODIFIED p (check_events false prev curr) in
    (new_event MODIFIED p ∈ check_events false prev curr ↔ differs)
    ∧ (differs → n = 1)
    ∧ (¬ differs → n = 0).
Proof.
  intros prev curr p a b Ha Hb differs n.
  assert (Hn : n = if meta_ne a b then 1 else 0)
    by apply (count_modified_common false prev curr p a b Ha Hb).
  pose proof (meta_ne_true a b) as Hm. fold differs in Hm.
  assert (Hin : new_event MODIFIED p ∈ check_events false prev curr
                ↔ 0 < n).
  { unfold n, count_events. rewrite <- Nat.neq_0_lt_0, length_zero_iff_nil.
    split.
    - intros He Hnil.
      assert (new_event MODIFIED p
              ∈ filter (fun e => ev_type e = MODIFIED ∧ ev_path e = p)
                  (check_events false prev curr)) as Hf
        by (apply list_elem_of_filter; done).
      rewrite Hnil in Hf. by apply not_elem_of_nil in Hf.
    - intros Hne.
      destruct (filter _ _) as [|e l] eqn:Hf; [done|].
      assert (e ∈ filter (fun e => ev_type e = MODIFIED ∧ ev_path e = p)
                    (check_events false prev curr)) as He
        by (rewrite Hf; left).
      apply list_elem_of_filter in He as [[Ht Hp] He].
      assert (e = new_event MODIFIED p) as <-; [|done].
      unfold check_events in He. cbv zeta in He.
      rewrite !elem_of_app, !list_elem_of_fmap in He.
      destruct He as [(q & -> & _)|[(q & -> & _)|He]]; try discriminate.
      unfold modified_events in He. apply list_elem_of_omap in He.
      destruct He as (q & _ & Hq).
      destruct (prev !! q), (curr !! q); try discriminate.
      destruct (is_modified _ _ _); [|discriminate].
      injection Hq as <-. simpl in Hp. by subst. }
  rewrite Hin, Hn. clear Hin Hn.
  destruct (meta_ne a b).
  - assert (differs) as Hd by (apply Hm; reflexivity).
    split; [split; [done | lia]|]. split; [done|]. intros Hnd. done.
  - assert (¬ differs) as Hd by (intros Hd; apply Hm in Hd; discriminate).
    split; [split; [lia | done]|]. split; done.
Qed.

Lemma metadata_mode_modified_iff_witness :
  count_events MODIFIED "/d/a.txt"
    (check_events false {["/d/a.txt" := snap_hello]}
       {["/d/a.txt" := snap_hello_world]}) = 1.
Proof.
  refine (proj1 (proj2 (metadata_mode_modified_iff
                          {["/d/a.txt" := snap_hello]}
                          {["/d/a.txt" := snap_hello_world]}
                          "/d/a.txt" snap_hello snap_hello_world _ _)) _).
  - reflexivity.
  - reflexivity.
  - right. simpl. lia.
Defined.

(** C2, as stated, fails: with both digests empty and different sizes
    and mtimes the hashing-mode diff reports nothing instead of falling
    back to the metadata comparison. *)
Lemma hashing_mode_no_metadata_fallback :
  ¬ (∀ (prev curr : gmap string FileSnapshot) (p : Path)
       (a b : FileSnapshot),
        prev !! p = Some a → curr !! p = Some b →
        snap_hash a = "" ∨ snap_hash b = "" →
        (new_event MODIFIED p ∈ check_events true prev curr
         ↔ meta_ne a b = true)).
Proof.
  intros claim.
  pose proof (claim {["/d/a.txt" := snap_nohash_1]}
                {["/d/a.txt" := snap_nohash_2]}
                "/d/a.txt" snap_nohash_1 snap_nohash_2
                eq_refl eq_refl (or_introl eq_refl)) as [_ Hback].
  specialize (Hback eq_refl).
  assert (Hnil : check_events true {["/d/a.txt" := snap_nohash_1]}
                   {["/d/a.txt" := snap_nohash_2]} = [])
    by (vm_compute; reflexivity).
  rewrite Hnil in Hback. by apply not_elem_of_nil in Hback.
Qed.

(** C2, amended. In hashing mode a path held by both snapshot sets gets a
    [modified] event (exactly one) if and only if its two digest strings
    differ, the empty digest being compared like any other string; mtime
    and size are not consulted; two empty digests give no event. *)
Theorem hashing_mode_compares_digests :
  ∀ (prev curr : gmap string FileSnapshot) (p : Path) (a b : FileSnapshot),
    prev !! p = Some a → curr !! p = Some b →
    let n := count_events MODIFIED p (check_events true prev curr) in
    (snap_hash a ≠ snap_hash b → n = 1)
    ∧ (snap_hash a = snap_hash b → n = 0)
    ∧ (snap_hash a = "" → snap_hash b = "" → n = 0).
Proof.
  intros prev curr p a b Ha Hb n.
  assert (Hn : n = if hash_ne a b then 1 else 0)
    by apply (count_modified_common true prev curr p a b Ha Hb).
  pose proof (hash_ne_true a b) as Hh.
  destruct (hash_ne a b).
  - assert (snap_hash a ≠ snap_hash b) as Hd by (apply Hh; reflexivity).
    split; [done|]. split; [done|]. intros Hea Heb. congruence.
  - assert (snap_hash a = snap_hash b) as He.
    { destruct (decide (snap_hash a = snap_hash b)) as [|Hd]; [done|].
      apply Hh in Hd. discriminate. }
    split; [done|]. split; done.
Qed.

Lemma hashing_mode_compares_digests_witness :
  count_events MODIFIED "/d/a.txt"
    (check_events true {["/d/a.txt" := snap_nohash_1]}
       {["/d/a.txt" := snap_nohash_2]}) = 0.
Proof.
  refine (proj1 (proj2 (hashing_mode_compares_digests
                          {["/d/a.txt" := snap_nohash_1]}
                          {["/d/a.txt" := snap_nohash_2]}
                          "/d/a.txt" snap_nohash_1 snap_nohash_2 _ _)) _).
  - reflexivity.
  - reflexivity.
  - reflexivity.
Defined.

(** ** Properties of the session: filtering and polling *)

Section SessionLemmas.
Context {World : Type} (path_match : Path -> string -> bool).
Implicit Types (w : FileWatcher World) (fs : FileSystem) (p : Path).

Lemma matches_iff w p :
  _matches path_match w p = true
  ↔ (∀ pat, pat ∈ ignore_patterns w → path_match p pat = false)
    ∧ (∃ pat, pat ∈ patterns w ∧ path_match p pat = true).
Proof.
  unfold _matches.
  destruct (existsb (path_match p) (ignore_patterns w)) eqn:Hig.
  - apply existsb_exists in Hig as (pat & Hin & Hpat).
    split; [discriminate|]. intros [Hno _].
    apply list_elem_of_In in Hin. rewrite (Hno pat Hin) in Hpat. discriminate.
  - assert (Hno : ∀ pat, pat ∈ ignore_patterns w → path_match p pat = false).
    { intros pat Hin. destruct (path_match p pat) eqn:Hpat; [|reflexivity].
      assert (existsb (path_match p) (ignore_patterns w) = true) as Hex
        by (apply existsb_exists; exists pat; by rewrite <- list_elem_of_In).
      congruence. }
    destruct (existsb (path_match p) (patterns w)) eqn:Hinc.
    + apply existsb_exists in Hinc as (pat & Hin & Hpat).
      apply list_elem_of_In in Hin. split; [eauto|reflexivity].
    + split; [discriminate|]. intros [_ (pat & Hin & Hpat)].
      assert (existsb (path_match p) (patterns w) = true) as Hex
        by (apply existsb_exists; exists pat; by rewrite <- list_elem_of_In).
      congruence.
Qed.

Lemma scan_step_filtered w fs (m : gmap string FileSnapshot) q :
  set_Forall (fun p => _matches path_match w p = true) (dom m) →
  set_Forall (fun p => _matches path_match w p = true)
    (dom (scan_step path_match w fs m q)).
Proof.
  intros Hm. unfold scan_step.
  destruct (fs_is_file fs q); [|exact Hm]. simpl.
  destruct (_matches path_match w q) eqn:Hq; [|exact Hm].
  rewrite dom_insert_L. intros p [Hp|Hp]%elem_of_union.
  - apply elem_of_singleton in Hp. by subst.
  - by apply Hm.
Qed.

Lemma scan_fold_filtered w fs (l : list Path) (m : gmap string FileSnapshot) :
  set_Forall (fun p => _matches path_match w p = true) (dom m) →
  set_Forall (fun p => _matches path_match w p = true)
    (dom (fold_left (scan_step path_match w fs) l m)).
Proof.
  revert m. induction l as [|q l IH]; intros m Hm; [exact Hm|].
  simpl. apply IH. by apply scan_step_filtered.
Qed.

(** Every path captured by a scan passes the filter. *)
Lemma scan_filtered w fs :
  set_Forall (fun p => _matches path_match w p = true)
    (dom (_scan path_match w fs)).
Proof.
  unfold _scan. destruct (fs_is_file fs (path w)).
  - destruct (_matches path_match w (path w)) eqn:Hroot.
    + rewrite dom_insert_L, dom_empty_L. intros p Hp.
      rewrite union_empty_r_L in Hp. apply elem_of_singleton in Hp.
      by subst.
    + rewrite dom_empty_L. apply set_Forall_empty.
  - apply scan_fold_filtered. rewrite dom_empty_L. apply set_Forall_empty.
Qed.

(** The path of an event of the diff is a key of one of the two sets. *)
Lemma check_events_paths uh (prev curr : gmap string FileSnapshot) e :
  e ∈ check_events uh prev curr →
  ev_path e ∈ dom prev ∨ ev_path e ∈ dom curr.
Proof.
  unfold check_events. cbv zeta.
  rewrite !elem_of_app, !list_elem_of_fmap.
  intros [(q & -> & Hq)|[(q & -> & Hq)|He]].
  - apply elem_of_elements, elem_of_difference in Hq as [Hq _]. by right.
  - apply elem_of_elements, elem_of_difference in Hq as [Hq _]. by left.
  - unfold modified_events in He. apply list_elem_of_omap in He.
    destruct He as (q & Hq & Hev).
    apply elem_of_elements, elem_of_intersection in Hq as [Hq _].
    destruct (prev !! q), (curr !! q); try discriminate.
    destruct (is_modified _ _ _); [|discriminate].
    injection Hev as <-. by left.
Qed.

Lemma check_filtered w fs (s : gmap string FileSnapshot) :
  set_Forall (fun p => _matches path_match w p = true) (dom s) →
  Forall (fun e => _matches path_match w (ev_path e) = true)
    (_check path_match (set_snapshots w s) fs).1.
Proof.
  intros Hs. apply Forall_forall. intros e He.
  apply check_events_paths in He as [He|He].
  - by apply Hs.
  - by apply (scan_filtered w fs).
Qed.

Lemma poll_once_state w fs (s : gmap string FileSnapshot) :
  (poll_once path_match (set_snapshots w s) fs).2
  = set_snapshots w (_scan path_match w fs).
Proof.
  unfold poll_once. destruct (Nat.eqb _ _); reflexivity.
Qed.

Lemma poll_once_filtered w fs (s : gmap string FileSnapshot) :
  set_Forall (fun p => _matches path_match w p = true) (dom s) →
  Forall (fun e => _matches path_match w (ev_path e) = true)
    (poll_once path_match (set_snapshots w s) fs).1.
Proof.
  intros Hs. unfold poll_once. destruct (Nat.eqb _ _).
  - constructor.
  - by apply check_filtered.
Qed.

Lemma poll_many_filtered w (fss : list FileSystem)
    (s : gmap string FileSnapshot) :
  set_Forall (fun p => _matches path_match w p = true) (dom s) →
  Forall (Forall (fun e => _matches path_match w (ev_path e) = true))
    (poll_many path_match (set_snapshots w s) fss).1
  ∧ set_Forall (fun p => _matches path_match w p = true)
      (dom (_snapshots (poll_many path_match (set_snapshots w s) fss).2)).
Proof.
  revert s. induction fss as [|fs fss IH]; intros s Hs.
  - split; [constructor | exact Hs].
  - cbn [poll_many].
    pose proof (poll_once_filtered w fs s Hs) as Hev.
    pose proof (poll_once_state w fs s) as Hst.
    destruct (poll_once path_match (set_snapshots w s) fs) as [evs w1].
    simpl in Hev, Hst. subst w1.
    specialize (IH (_scan path_match w fs) (scan_filtered w fs)).
    destruct (poll_many _ _ fss) as [out w2]. simpl in *.
    destruct IH as [IH1 IH2]. split; [by constructor | exact IH2].
Qed.

Lemma poll_loop_filtered w (sched : list FileSystem)
    (s : gmap string FileSnapshot) (st : World * list string) :
  set_Forall (fun p => _matches path_match w p = true) (dom s) →
  Forall (Forall (fun e => _matches path_match w (ev_path e) = true))
    (poll_loop path_match sched (set_snapshots w s) st).1.1.1
  ∧ set_Forall (fun p => _matches path_match w p = true)
      (dom (_snapshots (poll_loop path_match sched (set_snapshots w s) st).1.1.2)).
Proof.
  revert s st. induction sched as [|fs sched IH]; intros s st Hs.
  - split; [constructor | exact Hs].
  - cbn [poll_loop]. destruct (_running (set_snapshots w s)).
    2: { split; [constructor | exact Hs]. }
    pose proof (check_filtered w fs s Hs) as Hev.
    unfold _check in *. simpl in Hev.
    change (set_snapshots (set_snapshots w s) ?c) with (set_snapshots w c).
    change (_scan path_match (set_snapshots w s) fs)
      with (_scan path_match w fs).
    destruct (emit_all _ _ st) as [st' [e|]].
    + simpl. split; [by repeat constructor | apply scan_filtered].
    + specialize (IH (_scan path_match w fs) st' (scan_filtered w fs)).
      destruct (poll_loop _ sched _ st') as [[[out w2] st2] r]. simpl in *.
      destruct IH as [IH1 IH2]. split; [by constructor | exact IH2].
Qed.

End SessionLemmas.

(** C9. The filter admits a path if and only if no exclude pattern
    matches it and some include pattern does, exclusion coming first;
    every path of a scanned snapshot set, every path of an event returned
    by successive [poll_once] calls or produced by the polling loop, and
    every path of the snapshot set they leave behind passes the filter. *)
Theorem filter_policy_respected :
  ∀ (World : Type) (path_match : Path -> string -> bool)
    (w : FileWatcher World),
    (∀ p, _matches path_match w p = true
          ↔ (∀ pat, pat ∈ ignore_patterns w → path_match p pat = false)
            ∧ (∃ pat, pat ∈ patterns w ∧ path_match p pat = true))
    ∧ (∀ fs, set_Forall (fun p => _matches path_match w p = true)
               (dom (_scan path_match w fs)))
    ∧ (∀ fss,
         Forall (Forall (fun e => _matches path_match w (ev_path e) = true))
           (poll_many path_match (set_snapshots w ∅) fss).1
         ∧ set_Forall (fun p => _matches path_match w p = true)
             (dom (_snapshots (poll_many path_match (set_snapshots w ∅) fss).2)))
    ∧ (∀ fs0 sched st,
         Forall (Forall (fun e => _matches path_match w (ev_path e) = true))
           (_poll path_match w fs0 sched st).1.1.1
         ∧ set_Forall (fun p => _matches path_match w p = true)
             (dom (_snapshots (_poll path_match w fs0 sched st).1.1.2))).
Proof.
  intros World pm w. split; [apply matches_iff|].
  split; [apply scan_filtered|]. split.
  - intros fss. apply poll_many_filtered.
    rewrite dom_empty_L. apply set_Forall_empty.
  - intros fs0 sched st. unfold _poll.
    apply poll_loop_filtered, scan_filtered.
Qed.

(** With the include pattern [*.txt], a directory holding [a.txt] and
    [b.log] is scanned to [a.txt] alone. *)
Example txt_filter_scan :
  dom (_scan segment_match txt_watcher fs_txt_log) = ({["/d/a.txt"]} : gset string)
  ∧ _matches segment_match txt_watcher "/d/b.log" = false.
Proof. split; [by vm_compute | reflexivity]. Qed.

(** ** Construction *)

(** C10. [patterns=[]] builds the same session as leaving [patterns] out:
    the include list becomes [["*"]], so no argument yields an empty
    include list; likewise [ignore_patterns=[]] builds the same session as
    leaving it out, with no exclude pattern. *)
Theorem init_empty_lists_are_defaults :
  ∀ (World : Type) (p : Path) (rec : bool)
    (pats ignore_pats : option (list string)) (interval : Q) (uh : bool),
    @__init__ World p rec (Some []) ignore_pats interval uh
    = __init__ p rec None ignore_pats interval uh
    ∧ patterns (@__init__ World p rec (Some []) ignore_pats interval uh)
      = ["*"]
    ∧ patterns (@__init__ World p rec pats ignore_pats interval uh) ≠ []
    ∧ @__init__ World p rec pats (Some []) interval uh
      = __init__ p rec pats None interval uh
    ∧ ignore_patterns (@__init__ World p rec pats (Some []) interval uh) = [].
Proof.
  intros World p rec pats ignore_pats interval uh.
  repeat split.
  simpl. destruct pats as [[|a l]|]; discriminate.
Qed.

(** ** Dispatch *)

Section DispatchLemmas.
Context {World : Type}.
Implicit Types (w : FileWatcher World) (hs : list (Handler World)).

(** [on] appends: the list of a type is in registration order. *)
Lemma on_appends w t h :
  _handlers (on w t h) t = _handlers w t ++ [h].
Proof. unfold on. simpl. by rewrite decide_True. Qed.

Lemma on_other_type w t u h :
  u ≠ t → _handlers (on w t h) u = _handlers w u.
Proof. intros Hne. unfold on. simpl. by rewrite decide_False. Qed.







End DispatchLemmas.




(** ** Life cycle *)

Section LifeCycleLemmas.
Context {World : Type}.
Implicit Types (w : FileWatcher World) (rt : list Thread).

(** [start] while running changes nothing. *)
Lemma start_idempotent w rt :
  _running w = true → start w rt = (w, rt).
Proof. intros Hr. unfold start. by rewrite Hr. Qed.

Lemma start_twice w rt :
  start (start w rt).1 (start w rt).2 = start w rt.
Proof.
  unfold start at 2 3 4. destruct (_running w) eqn:Hr; simpl.
  - by apply start_idempotent.
  - reflexivity.
Qed.

Lemma stop_idempotent w : stop (stop w) = stop w.
Proof. reflexivity. Qed.


End LifeCycleLemmas.



(** ** Synchronous polling *)

Section PollOnceLemmas.
Context {World : Type} (path_match : Path -> string -> bool).
Implicit Types (w : FileWatcher World) (fs : FileSystem).

(** With no stored snapshot, [poll_once] returns no event and stores the
    scan. *)
Lemma poll_once_baseline w fs :
  _snapshots w = ∅ →
  poll_once path_match w fs = ([], set_snapshots w (_scan path_match w fs)).
Proof. intros He. unfold poll_once. by rewrite He, map_size_empty. Qed.

(** With stored snapshots, [poll_once] is one [_check]. *)
Lemma poll_once_checks w fs :
  _snapshots w ≠ ∅ → poll_once path_match w fs = _check path_match w fs.
Proof.
  intros Hne. unfold poll_once.
  destruct (Nat.eqb_spec (size (_snapshots w)) 0) as [H0|]; [|reflexivity].
  by apply map_size_empty_iff in H0.
Qed.

(** Two polls of an unchanged file system by a new session: no event. *)
Lemma poll_twice_unchanged w fs :
  (poll_many path_match (set_snapshots w ∅) [fs; fs]).1 = [[]; []].
Proof.
  cbn [poll_many]. rewrite poll_once_baseline by reflexivity.
  unfold poll_once. destruct (Nat.eqb _ _); [reflexivity|].
  unfold _check. simpl. by rewrite check_events_refl.
Qed.

(** A poll that stores an empty scan leaves the session as it was when
    new: the next poll is a baseline capture again. *)
Lemma poll_once_after_empty_scan w fs0 fs :
  _scan path_match w fs0 = ∅ →
  (poll_once path_match (poll_once path_match (set_snapshots w ∅) fs0).2 fs).1
  = [].
Proof.
  intros He.
  rewrite (poll_once_baseline (set_snapshots w ∅) fs0) by reflexivity.
  simpl.
  change (set_snapshots (set_snapshots w ∅) ?s) with (set_snapshots w s).
  change (_scan path_match (set_snapshots w ∅) fs0)
    with (_scan path_match w fs0).
  rewrite He. by rewrite poll_once_baseline.
Qed.

End PollOnceLemmas.

(** C1, at the input where the code departs from it.  A default session
    on the empty directory [/d] polls once; [x.txt] is then created; the
    second [poll_once] returns no event, although the diff of the stored
    (empty) state against the new scan is one [created] event, which the
    loop of [_poll] does report in the same situation. *)
Theorem poll_once_misses_creation_in_empty_directory :
  (poll_many segment_match default_watcher [fs_empty; fs_x]).1 = [[]; []]
  ∧ check_events (use_hash default_watcher)
      (_snapshots (poll_once segment_match default_watcher fs_empty).2)
      (_scan segment_match default_watcher fs_x)
    = [new_event CREATED "/d/x.txt"]
  ∧ (_poll segment_match (start default_watcher []).1 fs_empty [fs_x]
       (tt, [])).1.1.1
    = [[new_event CREATED "/d/x.txt"]].
Proof. repeat split; vm_compute; reflexivity. Qed.

(** ** Further properties of the diff engine *)

Section DiffLemmas.
Implicit Types (prev curr : gmap string FileSnapshot) (p : Path) (e : FileEvent).

Lemma elem_of_modified_events uh prev curr (l : list Path) e :
  e ∈ modified_events uh prev curr l
  ↔ ∃ p a b, e = new_event MODIFIED p ∧ p ∈ l ∧ prev !! p = Some a
             ∧ curr !! p = Some b ∧ is_modified uh a b = true.
Proof.
  unfold modified_events. rewrite list_elem_of_omap. split.
  - intros (p & Hp & He).
    destruct (prev !! p) as [a|] eqn:Ha; [|discriminate].
    destruct (curr !! p) as [b|] eqn:Hb; [|discriminate].
    destruct (is_modified uh a b) eqn:Hm; [|discriminate].
    injection He as <-. by exists p, a, b.
  - intros (p & a & b & -> & Hp & Ha & Hb & Hm).
    exists p. split; [done|]. by rewrite Ha, Hb, Hm.
Qed.

(** The events of the diff, one by one. *)
Lemma elem_of_check_events uh prev curr e :
  e ∈ check_events uh prev curr
  ↔ (∃ p, e = new_event CREATED p ∧ p ∈ dom curr ∧ p ∉ dom prev)
    ∨ (∃ p, e = new_event DELETED p ∧ p ∈ dom prev ∧ p ∉ dom curr)
    ∨ (∃ p a b, e = new_event MODIFIED p ∧ prev !! p = Some a
                ∧ curr !! p = Some b ∧ is_modified uh a b = true).
Proof.
  unfold check_events. cbv zeta.
  rewrite !elem_of_app, !list_elem_of_fmap, elem_of_modified_events.
  split.
  - intros [(p & -> & Hp)|[(p & -> & Hp)|(p & a & b & -> & _ & H)]].
    + apply elem_of_elements, elem_of_difference in Hp. left. by exists p.
    + apply elem_of_elements, elem_of_difference in Hp.
      right. left. by exists p.
    + right. right. by exists p, a, b.
  - intros [(p & -> & Hp)|[(p & -> & Hp)|(p & a & b & -> & Ha & Hb & Hm)]].
    + left. exists p. split; [done|].
      by apply elem_of_elements, elem_of_difference.
    + right. left. exists p. split; [done|].
      by apply elem_of_elements, elem_of_difference.
    + right. right. exists p, a, b. repeat split; try done.
      apply elem_of_elements, elem_of_intersection.
      split; apply elem_of_dom; eauto.
Qed.

(** The paths of the [modified] events, in order, are picked from the
    list of common paths. *)
Lemma modified_paths_sublist uh prev curr (l : list Path) :
  sublist (ev_path <$> modified_events uh prev curr l) l.
Proof.
  induction l as [|p l IH]; [constructor|].
  unfold modified_events in *. cbn [omap list_omap].
  destruct (prev !! p) as [a|]; [|by constructor].
  destruct (curr !! p) as [b|]; [|by constructor].
  destruct (is_modified uh a b); [|by constructor].
  rewrite fmap_cons. simpl. by constructor.
Qed.

Lemma new_event_paths t (l : list Path) : ev_path <$> (new_event t <$> l) = l.
Proof. rewrite <- list_fmap_compose. apply list_fmap_id. Qed.

Lemma elem_of_event_paths t (evs : list FileEvent) p :
  p ∈ event_paths t evs ↔ ∃ e, e ∈ evs ∧ ev_type e = t ∧ ev_path e = p.
Proof.
  unfold event_paths. rewrite elem_of_list_to_set, list_elem_of_fmap.
  split.
  - intros (e & -> & He). apply list_elem_of_filter in He as [Ht He].
    by exists e.
  - intros (e & He & Ht & <-). exists e. split; [done|].
    by apply list_elem_of_filter.
Qed.

End DiffLemmas.

(** X1. The diff never produces a [moved] event: every event it returns
    is [created], [modified] or [deleted], carries no old path and is not
    flagged as a directory. *)
Theorem check_events_never_moved :
  ∀ (use_hash : bool) (prev curr : gmap string FileSnapshot),
    Forall (fun e => ev_type e ≠ MOVED ∧ ev_old_path e = None
                     ∧ ev_is_directory e = false)
      (check_events use_hash prev curr).
Proof.
  intros uh prev curr. apply Forall_forall. intros e He.
  apply elem_of_check_events in He
    as [(p & -> & _)|[(p & -> & _)|(p & a & b & -> & _)]]; done.
Qed.

(** X2. The diff returns at most one event per path: no two events of
    one diff share their path, so the number of events is at most the
    number of paths of the two snapshot sets together. *)
Theorem check_events_one_event_per_path :
  ∀ (use_hash : bool) (prev curr : gmap string FileSnapshot),
    NoDup (ev_path <$> check_events use_hash prev curr)
    ∧ length (check_events use_hash prev curr) ≤ size (dom prev ∪ dom curr).
Proof.
  intros uh prev curr.
  assert (Hnd : NoDup (ev_path <$> check_events uh prev curr)).
  { unfold check_events. cbv zeta.
    rewrite !fmap_app, !new_event_paths.
    pose proof (modified_paths_sublist uh prev curr
                  (elements (dom prev ∩ dom curr))) as Hsub.
    assert (Hmod : ∀ p, p ∈ ev_path <$> modified_events uh prev curr
                              (elements (dom prev ∩ dom curr)) →
                        p ∈ dom prev ∧ p ∈ dom curr).
    { intros p Hp. apply (elem_of_sublist _ _ _ Hp) in Hsub.
      by apply elem_of_elements, elem_of_intersection in Hsub. }
    apply NoDup_app. split; [apply NoDup_elements|]. split.
    - intros p Hp [Hq|Hq]%elem_of_app.
      + apply elem_of_elements, elem_of_difference in Hp as [_ Hp].
        apply elem_of_elements, elem_of_difference in Hq as [Hq _]. done.
      + apply elem_of_elements, elem_of_difference in Hp as [_ Hp].
        apply Hmod in Hq as [Hq _]. done.
    - apply NoDup_app. split; [apply NoDup_elements|]. split.
      + intros p Hp Hq.
        apply elem_of_elements, elem_of_difference in Hp as [_ Hp].
        apply Hmod in Hq as [_ Hq]. done.
      + exact (sublist_NoDup _ _ (NoDup_elements (dom prev ∩ dom curr)) Hsub). }
  split; [exact Hnd|].
  rewrite <- (length_fmap ev_path).
  rewrite <- (size_list_to_set (C := gset string)) by exact Hnd.
  apply subseteq_size. intros p Hp.
  apply elem_of_list_to_set, list_elem_of_fmap in Hp as (e & -> & He).
  apply elem_of_check_events in He
    as [(q & -> & Hq & _)|[(q & -> & Hq & _)|(q & a & b & -> & Ha & _)]];
    simpl.
  - by apply elem_of_union_r.
  - by apply elem_of_union_l.
  - apply elem_of_union_l, elem_of_dom. eauto.
Qed.

(** X3. The [created] paths of a diff are the keys the current set adds,
    the [deleted] paths the keys it drops, the [modified] paths are keys
    of both; removing the deleted paths from the previous keys and adding
    the created ones gives the current keys. *)
Theorem check_events_replay :
  ∀ (use_hash : bool) (prev curr : gmap string FileSnapshot),
    let evs := check_events use_hash prev curr in
    event_paths CREATED evs = dom curr ∖ dom prev
    ∧ event_paths DELETED evs = dom prev ∖ dom curr
    ∧ event_paths MODIFIED evs ⊆ dom prev ∩ dom curr
    ∧ dom curr
      = (dom prev ∖ event_paths DELETED evs) ∪ event_paths CREATED evs.
Proof.
  intros uh prev curr evs.
  assert (Hc : event_paths CREATED evs = dom curr ∖ dom prev).
  { apply set_eq. intros p.
    rewrite elem_of_event_paths, elem_of_difference. split.
    - intros (e & He & Ht & <-).
      apply elem_of_check_events in He
        as [(q & -> & Hq)|[(q & -> & _)|(q & a & b & -> & _)]];
        try discriminate. exact Hq.
    - intros Hp. exists (new_event CREATED p). split; [|done].
      apply elem_of_check_events. left. by exists p. }
  assert (Hd : event_paths DELETED evs = dom prev ∖ dom curr).
  { apply set_eq. intros p.
    rewrite elem_of_event_paths, elem_of_difference. split.
    - intros (e & He & Ht & <-).
      apply elem_of_check_events in He
        as [(q & -> & _)|[(q & -> & Hq)|(q & a & b & -> & _)]];
        try discriminate. exact Hq.
    - intros Hp. exists (new_event DELETED p). split; [|done].
      apply elem_of_check_events. right. left. by exists p. }
  split; [exact Hc|]. split; [exact Hd|]. split.
  - intros p. rewrite elem_of_event_paths, elem_of_intersection.
    intros (e & He & Ht & <-).
    apply elem_of_check_events in He
      as [(q & -> & _)|[(q & -> & _)|(q & a & b & -> & Ha & Hb & _)]];
      try discriminate.
    split; apply elem_of_dom; eauto.
  - rewrite Hc, Hd. apply set_eq. intros p.
    rewrite elem_of_union, !elem_of_difference.
    destruct (decide (p ∈ dom prev)), (decide (p ∈ dom curr)); tauto.
Qed.

(** X4. The diff is empty exactly when the two snapshot sets have the
    same keys and no common path passes the modification test of the
    mode in use. *)
Theorem check_events_nil_iff :
  ∀ (use_hash : bool) (prev curr : gmap string FileSnapshot),
    check_events use_hash prev curr = []
    ↔ dom prev = dom curr
      ∧ (∀ p a b, prev !! p = Some a → curr !! p = Some b →
                  is_modified use_hash a b = false).
Proof.
  intros uh prev curr. split.
  - intros Hnil.
    assert (Hno : ∀ e, e ∉ check_events uh prev curr)
      by (intros e; rewrite Hnil; apply not_elem_of_nil).
    split.
    + apply set_eq. intros p. split; intros Hp.
      * destruct (decide (p ∈ dom curr)) as [|Hn]; [done|].
        exfalso. apply (Hno (new_event DELETED p)).
        apply elem_of_check_events. right. left. by exists p.
      * destruct (decide (p ∈ dom prev)) as [|Hn]; [done|].
        exfalso. apply (Hno (new_event CREATED p)).
        apply elem_of_check_events. left. by exists p.
    + intros p a b Ha Hb.
      destruct (is_modified uh a b) eqn:Hm; [|reflexivity].
      exfalso. apply (Hno (new_event MODIFIED p)).
      apply elem_of_check_events. right. right. by exists p, a, b.
  - intros [Hdom Hsame]. apply elem_of_nil_inv. intros e He.
    apply elem_of_check_events in He
      as [(p & -> & Hp & Hn)|[(p & -> & Hp & Hn)|(p & a & b & -> & Ha & Hb & Hm)]].
    + apply Hn. by rewrite Hdom.
    + apply Hn. by rewrite <- Hdom.
    + rewrite (Hsame p a b Ha Hb) in Hm. discriminate.
Qed.

(** ** Printing events *)

(** X5. For events other than [moved], the printed form determines the
    type and the path of the event. *)
Theorem str_determines_event :
  ∀ e1 e2 : FileEvent,
    ev_type e1 ≠ MOVED → ev_type e2 ≠ MOVED →
    __str__ e1 = __str__ e2 →
    ev_type e1 = ev_type e2 ∧ ev_path e1 = ev_path e2.
Proof.
  intros [t1 p1 o1 d1] [t2 p2 o2 d2]. unfold __str__. simpl.
  intros H1 H2.
  rewrite (decide_False (P := t1 = MOVED)) by done.
  rewrite (decide_False (P := t2 = MOVED)) by done.
  destruct t1, t2; try done; cbn; intros Heq;
    try discriminate; by simplify_eq.
Qed.

Lemma str_determines_event_witness :
  ev_type (new_event DELETED "/d/x.txt")
  = ev_type {| ev_type := DELETED; ev_path := "/d/x.txt";
               ev_old_path := Some "/d/old.txt"; ev_is_directory := true |}
  ∧ ev_path (new_event DELETED "/d/x.txt")
    = ev_path {| ev_type := DELETED; ev_path := "/d/x.txt";
                 ev_old_path := Some "/d/old.txt"; ev_is_directory := true |}.
Proof.
  apply (str_determines_event (new_event DELETED "/d/x.txt")
           {| ev_type := DELETED; ev_path := "/d/x.txt";
              ev_old_path := Some "/d/old.txt"; ev_is_directory := true |}).
  - discriminate.
  - discriminate.
  - reflexivity.
Defined.

(** ** Further properties of scanning and polling *)

Section ScanLemmas.
Context {World : Type} (path_match : Path -> string -> bool).
Implicit Types (w : FileWatcher World) (fs : FileSystem) (p : Path)
  (m : gmap string FileSnapshot).

Lemma scan_fold_lookup_out w fs (l : list Path) m p :
  ¬ (p ∈ l ∧ fs_is_file fs p = true ∧ _matches path_match w p = true) →
  fold_left (scan_step path_match w fs) l m !! p = m !! p.
Proof.
  revert m. induction l as [|q l IH]; intros m Hn; [reflexivity|].
  simpl. rewrite IH by (intros (? & ? & ?); apply Hn; by repeat constructor).
  unfold scan_step.
  destruct (fs_is_file fs q && _matches path_match w q) eqn:Hq; [|reflexivity].
  apply andb_true_iff in Hq as [Hf Hm].
  apply lookup_insert_ne. intros ->. apply Hn. by repeat constructor.
Qed.

Lemma scan_fold_lookup_in w fs (l : list Path) m p :
  p ∈ l → fs_is_file fs p = true → _matches path_match w p = true →
  fold_left (scan_step path_match w fs) l m !! p
  = Some (from_path fs p (use_hash w)).
Proof.
  revert m. induction l as [|q l IH]; intros m Hin Hf Hm.
  - by apply not_elem_of_nil in Hin.
  - simpl. destruct (decide (p ∈ l)) as [Hl|Hl]; [by apply IH|].
    apply elem_of_cons in Hin as [->|Hin]; [|done].
    rewrite scan_fold_lookup_out by (intros (? & _); done).
    unfold scan_step. rewrite Hf, Hm. simpl. apply lookup_insert_eq.
Qed.

Lemma scan_lookup w fs p s :
  _scan path_match w fs !! p = Some s
  ↔ s = from_path fs p (use_hash w)
    ∧ _matches path_match w p = true
    ∧ (if fs_is_file fs (path w) then p = path w
       else p ∈ fs_glob fs (path w) (if recursive w then "**/*" else "*")
            ∧ fs_is_file fs p = true).
Proof.
  unfold _scan. destruct (fs_is_file fs (path w)) eqn:Hroot.
  - destruct (_matches path_match w (path w)) eqn:Hm.
    + rewrite lookup_insert. destruct (decide (path w = p)) as [<-|Hne].
      * split; [intros [= <-]; done | intros (-> & _); done].
      * rewrite lookup_empty. split; [done | intros (_ & _ & ->); done].
    + rewrite lookup_empty. split; [done|].
      intros (_ & Hp & ->). congruence.
  - set (l := fs_glob fs (path w) (if recursive w then "**/*" else "*")).
    destruct (decide (p ∈ l ∧ fs_is_file fs p = true
                      ∧ _matches path_match w p = true))
      as [(Hin & Hf & Hm)|Hn].
    + rewrite scan_fold_lookup_in by done.
      split; [intros [= <-]; done | intros (-> & _); done].
    + rewrite scan_fold_lookup_out by done. rewrite lookup_empty.
      split; [done|]. intros (_ & Hm & Hin & Hf). by destruct Hn.
Qed.

Lemma scan_step_size w fs m q :
  size (scan_step path_match w fs m q) ≤ S (size m).
Proof.
  unfold scan_step. destruct (_ && _); [|lia].
  destruct (m !! q) eqn:Hq.
  - erewrite map_size_insert_Some by done. lia.
  - rewrite map_size_insert_None by done. lia.
Qed.

Lemma scan_fold_size w fs (l : list Path) m :
  size (fold_left (scan_step path_match w fs) l m) ≤ size m + length l.
Proof.
  revert m. induction l as [|q l IH]; intros m; simpl; [lia|].
  specialize (IH (scan_step path_match w fs m q)).
  pose proof (scan_step_size w fs m q). lia.
Qed.

Lemma poll_once_stores_scan w fs :
  (poll_once path_match w fs).2 = set_snapshots w (_scan path_match w fs).
Proof. unfold poll_once. destruct (Nat.eqb _ _); reflexivity. Qed.

End ScanLemmas.

(** X6. A scan holds exactly the paths that pass the filter and are
    either the root itself, when the root is a regular file, or regular
    files listed by the glob of the root ([**/*] when recursive, [*]
    otherwise); each is mapped to its [from_path] snapshot. *)
Theorem scan_lookup_iff :
  ∀ (World : Type) (path_match : Path -> string -> bool)
    (w : FileWatcher World) (fs : FileSystem) (p : Path) (s : FileSnapshot),
    _scan path_match w fs !! p = Some s
    ↔ s = from_path fs p (use_hash w)
      ∧ _matches path_match w p = true
      ∧ (if fs_is_file fs (path w) then p = path w
         else p ∈ fs_glob fs (path w) (if recursive w then "**/*" else "*")
              ∧ fs_is_file fs p = true).
Proof. intros World pm w fs p s. apply scan_lookup. Qed.

(** X7. Every entry of a scan is keyed by the path of its snapshot, is a
    regular file, and carries the empty digest when hashing is off; a
    root that is a file gives at most one entry, a directory at most one
    entry per glob result. *)
Theorem scan_entries_wellformed :
  ∀ (World : Type) (path_match : Path -> string -> bool)
    (w : FileWatcher World) (fs : FileSystem),
    map_Forall
      (fun p s => snap_path s = p ∧ fs_is_file fs p = true
                  ∧ snap_exists s = fs_exists fs p
                  ∧ (if use_hash w then True else snap_hash s = ""))
      (_scan path_match w fs)
    ∧ size (_scan path_match w fs)
      ≤ (if fs_is_file fs (path w) then 1
         else length (fs_glob fs (path w)
                        (if recursive w then "**/*" else "*"))).
Proof.
  intros World pm w fs. split.
  - intros p s Hs. apply scan_lookup in Hs as (-> & _ & Hp).
    assert (Hf : fs_is_file fs p = true).
    { destruct (fs_is_file fs (path w)) eqn:Hroot; [by subst | by destruct Hp]. }
    unfold from_path. destruct (fs_exists fs p); simpl.
    + repeat split; try done. by destruct (use_hash w).
    + repeat split; try done. by destruct (use_hash w).
  - unfold _scan. destruct (fs_is_file fs (path w)).
    + destruct (_matches pm w (path w)).
      * rewrite map_size_insert_None by apply lookup_empty.
        by rewrite map_size_empty.
      * rewrite map_size_empty. lia.
    + pose proof (scan_fold_size pm w fs
                    (fs_glob fs (path w) (if recursive w then "**/*" else "*"))
                    ∅) as Hsz.
      rewrite map_size_empty in Hsz. exact Hsz.
Qed.

(** X8. Whatever the session holds, a second [poll_once] (or [_check])
    on the file system just polled returns no event, and after a poll the
    stored snapshot set is the scan of that file system. *)
Theorem poll_twice_same_filesystem_silent :
  ∀ (World : Type) (path_match : Path -> string -> bool)
    (w : FileWatcher World) (fs : FileSystem),
    (poll_once path_match (poll_once path_match w fs).2 fs).1 = []
    ∧ (_check path_match (_check path_match w fs).2 fs).1 = []
    ∧ _snapshots (poll_once path_match w fs).2 = _scan path_match w fs
    ∧ _snapshots (_check path_match w fs).2 = _scan path_match w fs.
Proof.
  intros World pm w fs. rewrite poll_once_stores_scan.
  split; [|split; [|split; reflexivity]].
  - unfold poll_once. destruct (Nat.eqb _ _); [reflexivity|].
    unfold _check. simpl. apply check_events_refl.
  - unfold _check. simpl. apply check_events_refl.
Qed.

(** ** The polling loop against synchronous polling *)

Section LoopLemmas.
Context {World : Type} (path_match : Path -> string -> bool).
Implicit Types (w : FileWatcher World) (fs : FileSystem)
  (s : gmap string FileSnapshot) (st : World * list string).

Lemma emit_all_nil w st : emit_all w [] st = (st, None).
Proof. reflexivity. Qed.


(** On a file system that does not change, a running loop produces no
    event and dispatches nothing. *)
Lemma poll_loop_unchanged w fs (n : nat) st :
  _running w = true →
  poll_loop path_match (replicate n fs)
    (set_snapshots w (_scan path_match w fs)) st
  = (replicate n [], set_snapshots w (_scan path_match w fs), st, None).
Proof.
  intros Hrun. induction n as [|n IH]; [reflexivity|].
  cbn [replicate poll_loop].
  change (_running (set_snapshots w ?s)) with (_running w). rewrite Hrun.
  unfold _check.
  change (set_snapshots (set_snapshots w ?s) ?c) with (set_snapshots w c).
  change (_scan path_match (set_snapshots w ?s) fs)
    with (_scan path_match w fs).
  change (_snapshots (set_snapshots w ?s)) with s.
  rewrite check_events_refl, emit_all_nil, IH. reflexivity.
Qed.

End LoopLemmas.



(** X10. While the file system stays as it was at the baseline scan, a
    running polling loop produces no event in any cycle, calls no
    handler, logs nothing, and keeps the baseline as its stored set. *)
Theorem poll_unchanged_filesystem_silent :
  ∀ (World : Type) (path_match : Path -> string -> bool)
    (w : FileWatcher World) (fs : FileSystem) (n : nat)
    (st : World * list string),
    _running w = true →
    _poll path_match w fs (replicate n fs) st
    = (replicate n [], set_snapshots w (_scan path_match w fs), st, None).
Proof.
  intros World pm w fs n st Hrun. unfold _poll.
  by apply poll_loop_unchanged.
Qed.

Lemma poll_unchanged_filesystem_silent_witness :
  _poll segment_match running_watcher fs_x (replicate 3 fs_x) (tt, [])
  = (replicate 3 [],
     set_snapshots running_watcher (_scan segment_match running_watcher fs_x),
     (tt, []), None).
Proof.
  apply (poll_unchanged_filesystem_silent unit segment_match running_watcher
           fs_x 3 (tt, [])).
  reflexivity.
Defined.

(** ** Further properties of the dispatch *)

Section EmitLemmas.
Context {World : Type}.
Implicit Types (w : FileWatcher World) (hs : list (Handler World))
  (ev : FileEvent) (st : World * list string).


Lemma emit_loop_quiet hs ev (world : World) (log : list string) :
  (∀ h s, h ∈ hs → (h ev s).2 = None) →
  emit_loop hs ev (world, log)
  = ((fold_left (fun s h => (h ev s).1) hs world, log), None).
Proof.
  revert world. induction hs as [|h hs IH]; intros world Hq; [reflexivity|].
  cbn [emit_loop fold_left].
  pose proof (Hq h world (list_elem_of_here _ _)) as Hh.
  destruct (h ev world) as [world' r]. simpl in *. subst r.
  apply IH. intros h' s Hin. apply Hq. by right.
Qed.

(** Events of other types never reach a handler. *)
Lemma emit_all_other_type w (u : EventType) (h : Handler World)
    (events : list FileEvent) st :
  Forall (fun e => ev_type e ≠ u) events →
  emit_all (on w u h) events st = emit_all w events st.
Proof.
  intros Hev. revert st. induction Hev as [|ev events Ht _ IH]; intros st.
  - reflexivity.
  - cbn [emit_all]. unfold _emit. rewrite on_other_type by done.
    destruct (emit_loop _ ev st) as [st' [e|]]; [reflexivity | apply IH].
Qed.

Lemma check_events_not_moved uh (prev curr : gmap string FileSnapshot) :
  Forall (fun e => ev_type e ≠ MOVED) (check_events uh prev curr).
Proof.
  apply Forall_forall. intros e He.
  apply elem_of_check_events in He
    as [(p & -> & _)|[(p & -> & _)|(p & a & b & -> & _)]]; done.
Qed.

Lemma poll_loop_moved_handler (path_match : Path -> string -> bool) w
    (h : Handler World) (sched : list FileSystem)
    (s : gmap string FileSnapshot) st :
  poll_loop path_match sched (set_snapshots (on w MOVED h) s) st
  = let r := poll_loop path_match sched (set_snapshots w s) st in
    (r.1.1.1, on r.1.1.2 MOVED h, r.1.2, r.2).
Proof.
  revert s st. induction sched as [|fs sched IH]; intros s st.
  - reflexivity.
  - cbn [poll_loop].
    change (_running (set_snapshots (on w MOVED h) s)) with (_running w).
    change (_running (set_snapshots w s)) with (_running w).
    destruct (_running w); [|reflexivity].
    unfold _check.
    change (set_snapshots (set_snapshots (on w MOVED h) s) ?c)
      with (on (set_snapshots w c) MOVED h).
    change (set_snapshots (set_snapshots w s) ?c) with (set_snapshots w c).
    change (_scan path_match (set_snapshots (on w MOVED h) s) fs)
      with (_scan path_match w fs).
    change (_scan path_match (set_snapshots w s) fs)
      with (_scan path_match w fs).
    change (use_hash (set_snapshots (on w MOVED h) s)) with (use_hash w).
    change (use_hash (set_snapshots w s)) with (use_hash w).
    change (_snapshots (set_snapshots (on w MOVED h) s)) with s.
    change (_snapshots (set_snapshots w s)) with s.
    rewrite emit_all_other_type by apply check_events_not_moved.
    destruct (emit_all _ _ st) as [st' [e|]]; [reflexivity|].
    change (on (set_snapshots w ?c) MOVED h)
      with (set_snapshots (on w MOVED h) c).
    rewrite IH.
    destruct (poll_loop _ sched (set_snapshots w _) st')
      as [[[out w2] st2] r]. reflexivity.
Qed.

End EmitLemmas.



(** X12. A handler registered for [moved] alone is never called by the
    polling loop: with or without it the loop yields the same events,
    the same handler state, the same log and the same outcome. *)
Theorem moved_handler_never_called :
  ∀ (World : Type) (path_match : Path -> string -> bool)
    (w : FileWatcher World) (h : Handler World) (fs0 : FileSystem)
    (sched : list FileSystem) (st : World * list string),
    _poll path_match (on w MOVED h) fs0 sched st
    = let r := _poll path_match w fs0 sched st in
      (r.1.1.1, on r.1.1.2 MOVED h, r.1.2, r.2).
Proof.
  intros World pm w h fs0 sched st. unfold _poll.
  change (set_snapshots (on w MOVED h) (_scan pm (on w MOVED h) fs0))
    with (set_snapshots (on w MOVED h) (_scan pm w fs0)).
  apply poll_loop_moved_handler.
Qed.

(** X13. When the handlers of the type of an event all return normally,
    [_emit] calls each of them in order, writes nothing to the log and
    returns normally. *)
Theorem emit_quiet_handlers_log_nothing :
  ∀ (World : Type) (w : FileWatcher World) (ev : FileEvent)
    (world : World) (log : list string),
    (∀ h s, h ∈ _handlers w (ev_type ev) → (h ev s).2 = None) →
    _emit w ev (world, log)
    = ((fold_left (fun s h => (h ev s).1) (_handlers w (ev_type ev)) world,
        log), None).
Proof.
  intros World w ev world log Hq. unfold _emit. by apply emit_loop_quiet.
Qed.

Lemma emit_quiet_handlers_log_nothing_witness :
  _emit quiet_watcher (new_event CREATED "/d/x.txt") ([], ["earlier"])
  = ((["second"], ["earlier"]), None).
Proof.
  apply (emit_quiet_handlers_log_nothing (list string) quiet_watcher
           (new_event CREATED "/d/x.txt") [] ["earlier"]).
  intros h s Hin.
  apply elem_of_cons in Hin as [->|Hin]; [|by apply not_elem_of_nil in Hin].
  reflexivity.
Defined.

(** ** Further properties of the life cycle *)

Section CallLemmas.
Context {World : Type} (path_match : Path -> string -> bool).
Implicit Types (w : FileWatcher World) (rt : list Thread).

Lemma last_thread_snoc rt (t : Thread) : last (rt ++ [t]) = Some t.
Proof. apply last_snoc. Qed.

Lemma thread_idents_snoc rt :
  rt = (fun i => mkThread i true) <$> seq 0 (length rt) →
  rt ++ [mkThread (length rt) true]
  = (fun i => mkThread i true)
      <$> seq 0 (length (rt ++ [mkThread (length rt) true])).
Proof.
  intros Hrt. rewrite length_app. simpl.
  rewrite seq_app, fmap_app. simpl. by rewrite <- Hrt.
Qed.

(** One call keeps the configuration and the thread bookkeeping. *)
Lemma run_call_invariant (c : Call World) (w0 : FileWatcher World)
    (s : FileWatcher World * list Thread) :
  (path s.1 = path w0 ∧ recursive s.1 = recursive w0
   ∧ patterns s.1 = patterns w0 ∧ ignore_patterns s.1 = ignore_patterns w0
   ∧ poll_interval s.1 = poll_interval w0 ∧ use_hash s.1 = use_hash w0)
  ∧ _thread s.1 = last s.2
  ∧ s.2 = (fun i => mkThread i true) <$> seq 0 (length s.2)
  ∧ (_running s.1 = false ∨ s.2 ≠ []) →
  (path (run_call path_match c s).1 = path w0
   ∧ recursive (run_call path_match c s).1 = recursive w0
   ∧ patterns (run_call path_match c s).1 = patterns w0
   ∧ ignore_patterns (run_call path_match c s).1 = ignore_patterns w0
   ∧ poll_interval (run_call path_match c s).1 = poll_interval w0
   ∧ use_hash (run_call path_match c s).1 = use_hash w0)
  ∧ _thread (run_call path_match c s).1 = last (run_call path_match c s).2
  ∧ (run_call path_match c s).2
    = (fun i => mkThread i true)
        <$> seq 0 (length (run_call path_match c s).2)
  ∧ (_running (run_call path_match c s).1 = false
     ∨ (run_call path_match c s).2 ≠ []).
Proof.
  destruct s as [w rt]. simpl. intros (Hcfg & Hth & Hrt & Hrun).
  destruct c as [t h|h| | |fs]; simpl.
  - done.
  - done.
  - unfold start. destruct (_running w) eqn:Hr; simpl.
    { split; [exact Hcfg|]. split; [exact Hth|]. split; [exact Hrt|].
      destruct Hrun as [Hf|Hne]; [congruence | by right]. }
    split; [exact Hcfg|]. split; [by rewrite last_thread_snoc|].
    split; [by apply thread_idents_snoc|].
    right. intros Hnil. by apply app_eq_nil in Hnil as [_ ?].
  - split; [exact Hcfg|]. split; [exact Hth|]. split; [exact Hrt|]. by left.
  - rewrite poll_once_stores_scan. simpl. done.
Qed.

Lemma run_calls_invariant (cs : list (Call World)) (w0 : FileWatcher World)
    (s : FileWatcher World * list Thread) :
  (path s.1 = path w0 ∧ recursive s.1 = recursive w0
   ∧ patterns s.1 = patterns w0 ∧ ignore_patterns s.1 = ignore_patterns w0
   ∧ poll_interval s.1 = poll_interval w0 ∧ use_hash s.1 = use_hash w0)
  ∧ _thread s.1 = last s.2
  ∧ s.2 = (fun i => mkThread i true) <$> seq 0 (length s.2)
  ∧ (_running s.1 = false ∨ s.2 ≠ []) →
  (path (run_calls path_match cs s).1 = path w0
   ∧ recursive (run_calls path_match cs s).1 = recursive w0
   ∧ patterns (run_calls path_match cs s).1 = patterns w0
   ∧ ignore_patterns (run_calls path_match cs s).1 = ignore_patterns w0
   ∧ poll_interval (run_calls path_match cs s).1 = poll_interval w0
   ∧ use_hash (run_calls path_match cs s).1 = use_hash w0)
  ∧ _thread (run_calls path_match cs s).1 = last (run_calls path_match cs s).2
  ∧ (run_calls path_match cs s).2
    = (fun i => mkThread i true)
        <$> seq 0 (length (run_calls path_match cs s).2)
  ∧ (_running (run_calls path_match cs s).1 = false
     ∨ (run_calls path_match cs s).2 ≠ []).
Proof.
  revert s. induction cs as [|c cs IH]; intros s Hs; [exact Hs|].
  unfold run_calls. cbn [fold_left]. apply IH.
  by apply run_call_invariant.
Qed.

End CallLemmas.

(** X14. [start] on a running session changes no field and starts no
    thread, so [start] is idempotent, and so is [stop]; [__exit__] after
    [__enter__] leaves the session not running, with the handlers it had
    and the thread that [__enter__] recorded, and the pair starts at most
    one thread. *)
Theorem start_stop_idempotent :
  ∀ (World : Type) (w : FileWatcher World) (rt : list Thread),
    start (start w rt).1 (start w rt).2 = start w rt
    ∧ stop (stop w) = stop w
    ∧ _running (__exit__ (__enter__ w rt).1) = false
    ∧ _handlers (__exit__ (__enter__ w rt).1) = _handlers w
    ∧ _thread (__exit__ (__enter__ w rt).1) = _thread (__enter__ w rt).1
    ∧ length (__enter__ w rt).2 ≤ S (length rt).
Proof.
  intros World w rt. split; [apply start_twice|]. split; [reflexivity|].
  unfold __exit__, __enter__, start.
  destruct (_running w); simpl; repeat split; try reflexivity; try lia.
  rewrite length_app. simpl. lia.
Qed.

(** X15. After any sequence of [on], [on_any], [start], [stop] and
    [poll_once] calls on a new session (no thread started before), the
    configuration is the one given at construction, the recorded thread
    is the last thread started, the threads started are daemon threads
    numbered from 0 in order, and a running session has started at least
    one thread. *)
Theorem session_calls_keep_invariants :
  ∀ (World : Type) (path_match : Path -> string -> bool)
    (p : Path) (rec : bool) (pats ignore_pats : option (list string))
    (interval : Q) (uh : bool) (cs : list (Call World)),
    let s := run_calls path_match cs
               (__init__ p rec pats ignore_pats interval uh, []) in
    (path s.1 = p ∧ recursive s.1 = rec
     ∧ patterns s.1 = or_default pats ["*"]
     ∧ ignore_patterns s.1 = or_default ignore_pats []
     ∧ poll_interval s.1 = interval ∧ use_hash s.1 = uh)
    ∧ _thread s.1 = last s.2
    ∧ s.2 = (fun i => mkThread i true) <$> seq 0 (length s.2)
    ∧ (_running s.1 = false ∨ s.2 ≠ []).
Proof.
  intros World pm p rec pats ignore_pats interval uh cs.
  apply (run_calls_invariant pm cs
           (__init__ p rec pats ignore_pats interval uh)
           (__init__ p rec pats ignore_pats interval uh, [])).
  simpl. repeat split. by left.
Qed.



(** ** Groups of sessions *)

Section GroupLemmas.
Context {World : Type}.
Implicit Types (w : FileWatcher World) (ws : list (FileWatcher World))
  (rt : list Thread) (m : MultiWatcher.t World).

Lemma fold_on_handlers (l : list (Handler World)) w (u t : EventType) :
  _handlers (fold_left (fun w h => on w u h) l w) t
  = if decide (t = u) then _handlers w t ++ l else _handlers w t.
Proof.
  revert w. induction l as [|h l IH]; intros w; simpl.
  - destruct (decide (t = u)); [by rewrite app_nil_r | reflexivity].
  - rewrite IH. destruct (decide (t = u)) as [->|Hne].
    + by rewrite on_appends, <- app_assoc.
    + by rewrite on_other_type.
Qed.

(** A new member gets the handlers of the group after its own. *)
Lemma register_all_handlers (hs : EventType -> list (Handler World)) w t :
  _handlers (MultiWatcher.register_all hs w) t = _handlers w t ++ hs t.
Proof.
  unfold MultiWatcher.register_all, EventType_members. cbn [fold_left].
  rewrite !fold_on_handlers.
  destruct t; repeat (case_decide; try done).
Qed.

Lemma start_keeps_handlers w rt : _handlers (start w rt).1 = _handlers w.
Proof. unfold start. destruct (_running w); reflexivity. Qed.

Lemma start_sets_running w rt : _running (start w rt).1 = true.
Proof. unfold start. destruct (_running w) eqn:Hr; [exact Hr | reflexivity]. Qed.

Lemma start_each_handlers (H : EventType -> list (Handler World)) ws rt :
  Forall (fun w => ∀ t, _handlers w t = H t) ws →
  Forall (fun w => ∀ t, _handlers w t = H t)
    (MultiWatcher.start_each ws rt).1.
Proof.
  intros Hws. revert rt. induction Hws as [|w ws Hw _ IH]; intros rt.
  - constructor.
  - cbn [MultiWatcher.start_each].
    pose proof (start_keeps_handlers w rt) as Hk.
    destruct (start w rt) as [w' rt1]. simpl in Hk.
    specialize (IH rt1).
    destruct (MultiWatcher.start_each ws rt1) as [rest' rt2]. simpl in *.
    constructor; [|exact IH]. intros t. by rewrite Hk.
Qed.

Lemma start_each_running ws rt :
  Forall (fun w => _running w = true) (MultiWatcher.start_each ws rt).1
  ∧ length (MultiWatcher.start_each ws rt).1 = length ws
  ∧ length (MultiWatcher.start_each ws rt).2
    = length rt + length (filter (fun w => _running w = false) ws).
Proof.
  revert rt. induction ws as [|w ws IH]; intros rt.
  - simpl. repeat split; [constructor | lia].
  - cbn [MultiWatcher.start_each]. rewrite filter_cons.
    pose proof (start_sets_running w rt) as Hr.
    assert (Hlen : length (start w rt).2
                   = length rt + if _running w then 0 else 1).
    { unfold start. destruct (_running w); simpl; [lia|].
      rewrite length_app. simpl. lia. }
    destruct (start w rt) as [w' rt1]. simpl in Hr, Hlen.
    destruct (IH rt1) as (IH1 & IH2 & IH3).
    destruct (MultiWatcher.start_each ws rt1) as [rest' rt2]. simpl in *.
    split; [by constructor|]. split; [by rewrite IH2|].
    rewrite IH3, Hlen.
    destruct (_running w); simpl; lia.
Qed.

Lemma start_each_all_running ws rt :
  Forall (fun w => _running w = true) ws →
  MultiWatcher.start_each ws rt = (ws, rt).
Proof.
  induction 1 as [|w ws Hw _ IH]; [reflexivity|].
  cbn [MultiWatcher.start_each]. rewrite (start_idempotent w rt Hw).
  by rewrite IH.
Qed.

Lemma group_on_invariant m (u : EventType) (h : Handler World) :
  Forall (fun w => ∀ t, _handlers w t = MultiWatcher._handlers m t)
    (MultiWatcher._watchers m) →
  Forall (fun w => ∀ t, _handlers w t
                        = MultiWatcher._handlers (MultiWatcher.on m u h) t)
    (MultiWatcher._watchers (MultiWatcher.on m u h)).
Proof.
  intros Hm. unfold MultiWatcher.on. simpl. apply Forall_fmap.
  eapply Forall_impl; [exact Hm|]. intros w Hw t. simpl.
  by rewrite Hw.
Qed.

Lemma group_call_invariant (c : MultiWatcher.Call World)
    (s : MultiWatcher.t World * list Thread) :
  Forall (fun w => ∀ t, _handlers w t = MultiWatcher._handlers s.1 t)
    (MultiWatcher._watchers s.1) →
  Forall (fun w => ∀ t, _handlers w t
             = MultiWatcher._handlers (MultiWatcher.run_call c s).1 t)
    (MultiWatcher._watchers (MultiWatcher.run_call c s).1).
Proof.
  destruct s as [m rt]. cbn [fst snd]. intros Hm.
  destruct c as [p rec pats ign iv uh|u h|h| |];
    cbn [MultiWatcher.run_call fst snd].
  - unfold MultiWatcher.watch. cbn [MultiWatcher._watchers MultiWatcher._handlers].
    apply Forall_app. split; [exact Hm|].
    constructor; [|constructor]. intros t.
    by rewrite register_all_handlers.
  - by apply group_on_invariant.
  - unfold MultiWatcher.on_any, EventType_members. cbn [fold_left].
    by do 4 apply group_on_invariant.
  - unfold MultiWatcher.start.
    pose proof (start_each_handlers (MultiWatcher._handlers m)
                  (MultiWatcher._watchers m) rt Hm) as Hs.
    destruct (MultiWatcher.start_each _ rt) as [ws rt']. exact Hs.
  - unfold MultiWatcher.stop.
    cbn [MultiWatcher._watchers MultiWatcher._handlers].
    apply Forall_fmap. exact Hm.
Qed.

End GroupLemmas.

(** X17. After any sequence of [watch], [on], [on_any], [start] and
    [stop] calls on a new group, every session of the group has, for
    every event type, exactly the handler list of the group, in the same
    order: handlers registered before a session joined and after it
    joined alike. *)
Theorem group_handlers_in_sync :
  ∀ (World : Type) (cs : list (MultiWatcher.Call World)),
    Forall
      (fun w => ∀ t, _handlers w t
                     = MultiWatcher._handlers (MultiWatcher.run_calls cs).1 t)
      (MultiWatcher._watchers (MultiWatcher.run_calls cs).1).
Proof.
  intros World cs. unfold MultiWatcher.run_calls.
  assert (Hgen : ∀ s : MultiWatcher.t World * list Thread,
             Forall (fun w => ∀ t, _handlers w t = MultiWatcher._handlers s.1 t)
               (MultiWatcher._watchers s.1) →
             Forall (fun w => ∀ t, _handlers w t
                        = MultiWatcher._handlers
                            (fold_left (fun s c => MultiWatcher.run_call c s) cs s).1 t)
               (MultiWatcher._watchers
                  (fold_left (fun s c => MultiWatcher.run_call c s) cs s).1)).
  { induction cs as [|c cs IH]; intros s Hs; [exact Hs|].
    cbn [fold_left]. apply IH. by apply group_call_invariant. }
  apply Hgen. constructor.
Qed.

(** X18. Starting a group leaves every session running and starts one
    thread for each session that was not running; starting it again
    changes nothing; stopping it leaves no session running, after which
    a new start starts one thread per session.  Neither call changes
    the number of sessions or the handlers of the group. *)
Theorem group_start_stop :
  ∀ (World : Type) (m : MultiWatcher.t World) (rt : list Thread),
    let r := MultiWatcher.start m rt in
    Forall (fun w => _running w = true) (MultiWatcher._watchers r.1)
    ∧ length (MultiWatcher._watchers r.1) = length (MultiWatcher._watchers m)
    ∧ length r.2
      = length rt
        + length (filter (fun w => _running w = false)
                    (MultiWatcher._watchers m))
    ∧ MultiWatcher.start r.1 r.2 = r
    ∧ Forall (fun w => _running w = false)
        (MultiWatcher._watchers (MultiWatcher.stop m))
    ∧ length (MultiWatcher.start (MultiWatcher.stop m) rt).2
      = length rt + length (MultiWatcher._watchers m)
    ∧ MultiWatcher._handlers r.1 = MultiWatcher._handlers m
    ∧ MultiWatcher._handlers (MultiWatcher.stop m) = MultiWatcher._handlers m.
Proof.
  intros World m rt r. subst r. unfold MultiWatcher.start.
  destruct (start_each_running (MultiWatcher._watchers m) rt)
    as (Hrun & Hlen & Hthr).
  destruct (MultiWatcher.start_each (MultiWatcher._watchers m) rt)
    as [ws rt'] eqn:Heach.
  simpl in *.
  split; [exact Hrun|]. split; [exact Hlen|]. split; [exact Hthr|].
  split; [by rewrite (start_each_all_running ws rt' Hrun)|].
  assert (Hstopped : Forall (fun w : FileWatcher World => _running w = false)
                       (stop <$> MultiWatcher._watchers m))
    by (apply Forall_fmap, Forall_true; reflexivity).
  split; [exact Hstopped|]. split; [|split; reflexivity].
  destruct (start_each_running (stop <$> MultiWatcher._watchers m) rt)
    as (_ & _ & Hthr').
  destruct (MultiWatcher.start_each (stop <$> MultiWatcher._watchers m) rt)
    as [ws2 rt2]. simpl in *.
  rewrite Hthr'. f_equal.
  rewrite <- (length_fmap stop (MultiWatcher._watchers m)).
  f_equal. clear Hthr'.
  induction Hstopped as [|w l Hw _ IH]; [reflexivity|].
  rewrite filter_cons, decide_True by done. by rewrite IH.
Qed.

(** ** From the file system to the events *)

(** X19. For a file captured by two successive scans and existing at
    both, the second diff holds one [modified] event for it exactly when,
    with hashing on, the MD5 digests of its content differ (size and
    mtime playing no part) or, with hashing off, its [st_mtime] or its
    [st_size] differ (the content playing no part); otherwise none. *)
Theorem modified_follows_filesystem :
  ∀ (World : Type) (path_match : Path -> string -> bool)
    (w : FileWatcher World) (fs1 fs2 : FileSystem) (p : Path),
    p ∈ dom (_scan path_match w fs1) →
    p ∈ dom (_scan path_match w fs2) →
    fs_exists fs1 p = true → fs_exists fs2 p = true →
    count_events MODIFIED p
      (_check path_match (set_snapshots w (_scan path_match w fs1)) fs2).1
    = if use_hash w
      then (if String.eqb (fs_md5 fs1 p) (fs_md5 fs2 p) then 0 else 1)
      else (if Qeq_bool (fs_st_mtime fs1 p) (fs_st_mtime fs2 p)
               && Z.eqb (fs_st_size fs1 p) (fs_st_size fs2 p)
            then 0 else 1).
Proof.
  intros World pm w fs1 fs2 p H1 H2 He1 He2.
  apply elem_of_dom in H1 as [a Ha]. apply elem_of_dom in H2 as [b Hb].
  unfold _check. simpl.
  change (_scan pm (set_snapshots w (_scan pm w fs1)) fs2)
    with (_scan pm w fs2).
  rewrite (count_modified_common (use_hash w) _ _ p a b Ha Hb).
  apply scan_lookup in Ha as (-> & _ & Hp1).
  apply scan_lookup in Hb as (-> & _ & Hp2).
  assert (Hf1 : fs_is_file fs1 p = true).
  { destruct (fs_is_file fs1 (path w)) eqn:Hroot; [by subst | by destruct Hp1]. }
  assert (Hf2 : fs_is_file fs2 p = true).
  { destruct (fs_is_file fs2 (path w)) eqn:Hroot; [by subst | by destruct Hp2]. }
  unfold is_modified, hash_ne, meta_ne, from_path.
  rewrite He1, He2, Hf1, Hf2. simpl.
  destruct (use_hash w); simpl.
  - by destruct (String.eqb _ _).
  - destruct (Qeq_bool _ _), (Z.eqb _ _); reflexivity.
Qed.

Lemma modified_follows_filesystem_witness :
  count_events MODIFIED "/d/x.txt"
    (_check segment_match
       (set_snapshots default_watcher (_scan segment_match default_watcher fs_x))
       fs_x2).1
  = 1.
Proof.
  apply (modified_follows_filesystem unit segment_match default_watcher
           fs_x fs_x2 "/d/x.txt").
  - apply elem_of_dom. exists (from_path fs_x "/d/x.txt" false).
    vm_compute. reflexivity.
  - apply elem_of_dom. exists (from_path fs_x2 "/d/x.txt" false).
    vm_compute. reflexivity.
  - reflexivity.
  - reflexivity.
Defined.
